(** * TrustLoop: retrieval-and-learning pipeline, shallow embedding

    JavaScript strings are modelled as lists of UTF-16 code units
    ([list N]); string literals of the sources are written with [u], which
    reads an ASCII Rocq string as code units. *)

From Stdlib Require Import List NArith ZArith QArith Bool String Ascii Lia.
From Stdlib Require Import Sorting.Sorted Permutation DecimalN.
Import ListNotations.
Set Warnings "-register-all".

(** ** JavaScript strings *)
Module JsString.

Local Open Scope N_scope.

Definition jstr := list N.

Definition u (s : string) : jstr := map (fun a => N_of_ascii a) (list_ascii_of_string s).

Definition jstr_eqb (a b : jstr) : bool :=
  if list_eq_dec N.eq_dec a b then true else false.



Definition mem (w : jstr) (l : list jstr) : bool := existsb (jstr_eqb w) l.



(** ECMAScript WhiteSpace and LineTerminator (the class [\s], and what
    [String.prototype.trim] removes). *)
Definition is_ws (c : N) : bool :=
  (c =? 9) || (c =? 10) || (c =? 11) || (c =? 12) || (c =? 13) || (c =? 32)
  || (c =? 160) || (c =? 5760) || ((8192 <=? c) && (c <=? 8202))
  || (c =? 8232) || (c =? 8233) || (c =? 8239) || (c =? 8287)
  || (c =? 12288) || (c =? 65279).

(** LineTerminator: what the regular-expression [.] does not match. *)
Definition is_line_term (c : N) : bool :=
  (c =? 10) || (c =? 13) || (c =? 8232) || (c =? 8233).

(** The class [\w]: [A-Za-z0-9_]. *)
Definition is_word (c : N) : bool :=
  ((48 <=? c) && (c <=? 57)) || ((65 <=? c) && (c <=? 90))
  || ((97 <=? c) && (c <=? 122)) || (c =? 95).

(** [String.prototype.toLowerCase], per code unit, for the Basic Latin and
    Latin-1 ranges. This is a partial model: the case pairs above U+00FF
    (Latin Extended, Greek, Cyrillic, ...) are left unchanged here, so it
    agrees with JavaScript on text whose cased letters are all at or below
    U+00FF. *)
Definition lower_unit (c : N) : N :=
  if ((65 <=? c) && (c <=? 90)) || ((192 <=? c) && (c <=? 222) && negb (c =? 215))
  then c + 32 else c.

Definition toLowerCase (s : jstr) : jstr := map lower_unit s.



(** [trim]: drop leading and trailing whitespace. *)
Fixpoint trim_start (s : jstr) : jstr :=
  match s with
  | [] => []
  | c :: s' => if is_ws c then trim_start s' else s
  end.

Definition trim (s : jstr) : jstr := rev (trim_start (rev (trim_start s))).

(** [hay.includes(needle)]. *)
Fixpoint is_prefix (p s : jstr) : bool :=
  match p, s with
  | [], _ => true
  | a :: p', b :: s' => (a =? b) && is_prefix p' s'
  | _ :: _, [] => false
  end.

Fixpoint includes (hay needle : jstr) : bool :=
  is_prefix needle hay || match hay with [] => false | _ :: h' => includes h' needle end.

(** [s.split(" ")] for a one-unit separator. *)
Fixpoint split_on (sep : N) (cur : jstr) (s : jstr) : list jstr :=
  match s with
  | [] => [rev cur]
  | c :: s' => if c =? sep then rev cur :: split_on sep [] s' else split_on sep (c :: cur) s'
  end.

(** [s.split(/\s+/)]: the pieces between maximal runs of whitespace. The flag
    says whether the previous code unit was whitespace. *)
Fixpoint split_ws (cur : jstr) (inrun : bool) (s : jstr) : list jstr :=
  match s with
  | [] => [rev cur]
  | c :: s' =>
      if is_ws c then
        (if inrun then split_ws cur true s' else rev cur :: split_ws [] true s')
      else split_ws (c :: cur) false s'
  end.

(** [arr.join(" ")]. *)
Fixpoint join_sp (l : list jstr) : jstr :=
  match l with
  | [] => []
  | [w] => w
  | w :: l' => w ++ 32 :: join_sp l'
  end.

(** [[...new Set(l)]]: first occurrences, in order. *)
Fixpoint uniq_aux (seen : list jstr) (l : list jstr) : list jstr :=
  match l with
  | [] => []
  | w :: l' => if mem w seen then uniq_aux seen l' else w :: uniq_aux (w :: seen) l'
  end.

Definition uniq (l : list jstr) : list jstr := uniq_aux [] l.

End JsString.
Import JsString.

(** ** src/lib/excel-parser.ts *)
Module ExcelParser.
Local Open Scope N_scope.

Definition stop_literal : string :=
  "a an the and or but in on at to for of with by from as is was are were be been being have has had do does did will would could should may might must shall can need dare ought used".

Definition stop : list jstr := split_on 32 [] (u stop_literal).

(** [.replace(/[^\w\s]/g, " ")] *)
Definition replace_non_word (s : jstr) : jstr :=
  map (fun c => if is_word c || is_ws c then c else 32) s.

Definition keep_word (w : jstr) : bool := (1 <? List.length w)%nat && negb (mem w stop).

(** [extractSearchTerms(text)]; the [(text || ...)] default is [text] itself for a string. *)
Definition extractSearchTerms (text : jstr) : list jstr :=
  uniq (filter keep_word (split_ws [] false (replace_non_word (toLowerCase text)))).

End ExcelParser.

(** ** src/lib/excel-parser.ts: relevance scoring *)
Module Search.
Local Open Scope nat_scope.

Record KnowledgeArticleRow := mkKB {
  KB_Article_ID : jstr; Title : option jstr; Body : option jstr; Tags : option jstr }.

Record ScriptRow := mkScript {
  Script_ID : jstr; Script_Title : option jstr; Script_Purpose : option jstr; Category : option jstr }.

(** [x ?? ...] with the empty string as default. *)
Definition opt_str (o : option jstr) : jstr := match o with Some s => s | None => [] end.

(** [let score = 0; for (const term of searchTerms) if (combined.includes(term)) score += 1;] *)
Definition count_matches (combined : jstr) (searchTerms : list jstr) : nat :=
  fold_left (fun score term => if includes combined term then S score else score) searchTerms 0.

(** [scored.sort((a, b) => b.score - a.score)]: [Array.prototype.sort] is
    stable, so its result is the stable insertion sort by that comparator:
    [x] goes before the first [y] with [b.score - a.score > 0] for [(y, x)]. *)
Fixpoint insert_by_score {A} (x : A * nat) (l : list (A * nat)) : list (A * nat) :=
  match l with
  | [] => [x]
  | y :: l' => if snd y <? snd x then x :: l else y :: insert_by_score x l'
  end.

Definition sort_by_score {A} (l : list (A * nat)) : list (A * nat) :=
  fold_left (fun acc x => insert_by_score x acc) l [].

(** [scored.sort(...); scored.filter((s) => s.score > 0).slice(0, limit).map((s) => s.art)] *)
Definition rank {A} (scored : list (A * nat)) (limit : nat) : list A :=
  map fst (firstn limit (filter (fun p => 0 <? snd p) (sort_by_score scored))).

(** [`${title} ${body} ${tags}`] with each field lowercased. *)
Definition kb_haystack (art : KnowledgeArticleRow) : jstr :=
  toLowerCase (opt_str (Title art)) ++ [32%N] ++ toLowerCase (opt_str (Body art))
  ++ [32%N] ++ toLowerCase (opt_str (Tags art)).

Definition script_haystack (s : ScriptRow) : jstr :=
  toLowerCase (opt_str (Script_Title s)) ++ [32%N] ++ toLowerCase (opt_str (Script_Purpose s))
  ++ [32%N] ++ toLowerCase (opt_str (Category s)).

(** [searchKnowledgeArticles(searchTerms, limit)] over the loaded corpus
    [articles] (the cached [loadKnowledgeArticles()]). *)
Definition searchKnowledgeArticles (articles : list KnowledgeArticleRow)
    (searchTerms : list jstr) (limit : nat) : list KnowledgeArticleRow :=
  rank (map (fun art => (art, count_matches (kb_haystack art) searchTerms)) articles) limit.

(** [searchScripts(searchTerms, limit)] over the loaded [scripts]. *)
Definition searchScripts (scripts : list ScriptRow)
    (searchTerms : list jstr) (limit : nat) : list ScriptRow :=
  rank (map (fun s => (s, count_matches (script_haystack s) searchTerms)) scripts) limit.

(** The scoring contract in the words of the spec: the score is the number
    of distinct terms occurring in the haystack; the records scoring [k]
    come in corpus order, groups from the highest score [k] down to 1. *)
Definition distinct_score {R} (hay : R -> jstr) (terms : list jstr) (r : R) : nat :=
  List.length (nodup (list_eq_dec N.eq_dec) (filter (fun t => includes (hay r) t) terms)).

Fixpoint by_score_desc {R} (score : R -> nat) (corpus : list R) (k : nat) : list R :=
  match k with
  | 0 => []
  | S k' => filter (fun r => score r =? k) corpus ++ by_score_desc score corpus k'
  end.

Definition search_spec {R} (hay : R -> jstr) (terms : list jstr) (corpus : list R) (limit : nat) : list R :=
  firstn limit (by_score_desc (distinct_score hay terms) corpus (List.length terms)).

End Search.

(** ** JSON values and [JSON.parse]

    [JSON.parse] is modelled as a lexer, run one code unit at a time, followed
    by a recursive-descent parser over the tokens. Numbers are kept as exact
    rationals (rounding to a double is not modelled); an object keeps its
    members in source order. *)
Module Json.
Local Open Scope N_scope.

Inductive jvalue :=
  | JNull
  | JBool (b : bool)
  | JNum (q : Q)
  | JStr (s : jstr)
  | JArr (l : list jvalue)
  | JObj (m : list (jstr * jvalue)).

Inductive token :=
  | TLBrace | TRBrace | TLBrack | TRBrack | TColon | TComma
  | TString (s : jstr)
  | TBare (w : jstr).

(** Lexer states: outside strings (with the reversed pending bare word), in a
    string (reversed contents), after a backslash, or in a [\uXXXX] escape
    ([n] digits read so far, value [v]). *)
Inductive lstate :=
  | LOut (bare : jstr)
  | LStr (acc : jstr)
  | LEsc (acc : jstr)
  | LHex (acc : jstr) (n : nat) (v : N).

Definition json_ws (c : N) : bool := (c =? 32) || (c =? 9) || (c =? 10) || (c =? 13).

Definition bare_char (c : N) : bool :=
  ((48 <=? c) && (c <=? 57)) || (c =? 43) || (c =? 45) || (c =? 46)
  || ((65 <=? c) && (c <=? 90)) || ((97 <=? c) && (c <=? 122)).

Definition hex_val (c : N) : option N :=
  if (48 <=? c) && (c <=? 57) then Some (c - 48)
  else if (65 <=? c) && (c <=? 70) then Some (c - 55)
  else if (97 <=? c) && (c <=? 102) then Some (c - 87)
  else None.

Definition punct (c : N) : option token :=
  if c =? 123 then Some TLBrace else if c =? 125 then Some TRBrace
  else if c =? 91 then Some TLBrack else if c =? 93 then Some TRBrack
  else if c =? 58 then Some TColon else if c =? 44 then Some TComma else None.

Definition flush (bare : jstr) (toks : list token) : list token :=
  match bare with [] => toks | _ => TBare (rev bare) :: toks end.

(** The single-character escapes: quote, backslash, slash, b, f, n, r, t. *)
Definition simple_escape (c : N) : option N :=
  if (c =? 34) || (c =? 92) || (c =? 47) then Some c
  else if c =? 98 then Some 8 else if c =? 102 then Some 12
  else if c =? 110 then Some 10 else if c =? 114 then Some 13
  else if c =? 116 then Some 9 else None.

(** One lexer step. [ctrl] says what a raw control code unit (0..31) inside
    a string decodes to; the strict lexer of [JSON.parse] refuses it. *)
Definition lex_step (ctrl : N -> option jstr) (s : list token * lstate) (c : N)
    : option (list token * lstate) :=
  let (toks, st) := s in
  match st with
  | LOut bare =>
      if json_ws c then Some (flush bare toks, LOut [])
      else if c =? 34 then Some (flush bare toks, LStr [])
      else match punct c with
           | Some p => Some (p :: flush bare toks, LOut [])
           | None => if bare_char c then Some (toks, LOut (c :: bare)) else None
           end
  | LStr acc =>
      if c =? 34 then Some (TString (rev acc) :: toks, LOut [])
      else if c =? 92 then Some (toks, LEsc acc)
      else if c <=? 31 then
        match ctrl c with Some d => Some (toks, LStr (rev d ++ acc)) | None => None end
      else Some (toks, LStr (c :: acc))
  | LEsc acc =>
      if c =? 117 then Some (toks, LHex acc 0 0)
      else match simple_escape c with Some e => Some (toks, LStr (e :: acc)) | None => None end
  | LHex acc n v =>
      match hex_val c with
      | Some d => if (n =? 3)%nat then Some (toks, LStr ((16 * v + d) :: acc))
                  else Some (toks, LHex acc (S n) (16 * v + d))
      | None => None
      end
  end.

Fixpoint lex_from (ctrl : N -> option jstr) (s : list token * lstate) (t : jstr)
    : option (list token * lstate) :=
  match t with
  | [] => Some s
  | c :: t' => match lex_step ctrl s c with Some s' => lex_from ctrl s' t' | None => None end
  end.

Definition lex_finish (s : list token * lstate) : option (list token) :=
  match s with (toks, LOut bare) => Some (rev (flush bare toks)) | _ => None end.

Definition lex (ctrl : N -> option jstr) (t : jstr) : option (list token) :=
  match lex_from ctrl ([], LOut []) t with Some s => lex_finish s | None => None end.

Definition strict_ctrl (_ : N) : option jstr := None.

(** Numbers: an optional minus, the integer part (0, or a nonzero digit and
    more digits), an optional fraction (a dot and digits), an optional exponent
    (e or E, an optional sign, digits). *)
Definition is_digit (c : N) : bool := (48 <=? c) && (c <=? 57).

Fixpoint digits (w : jstr) : jstr * jstr :=
  match w with
  | c :: w' => if is_digit c then let (d, r) := digits w' in (c :: d, r) else ([], w)
  | [] => ([], [])
  end.

Definition digits_value (d : jstr) : Z :=
  fold_left (fun acc c => 10 * acc + Z.of_N (c - 48))%Z d 0%Z.

Definition scale (m : Z) (e : Z) : Q :=
  if (0 <=? e)%Z then inject_Z (m * 10 ^ e) else Qred (m # Pos.of_nat (10 ^ Z.to_nat (- e))).

Definition parse_number (w : jstr) : option Q :=
  let (neg, w1) := match w with 45 :: w' => (true, w') | _ => (false, w) end in
  let (ip, w2) := digits w1 in
  let int_ok := match ip with [] => false | [_] => true | c :: _ => negb (c =? 48) end in
  let '(fp, w3, frac_ok) :=
    match w2 with
    | 46 :: w' => let (f, r) := digits w' in (f, r, match f with [] => false | _ => true end)
    | _ => ([], w2, true)
    end in
  let '(e, exp_ok) :=
    match w3 with
    | [] => (0%Z, true)
    | c :: w' =>
        if (c =? 101) || (c =? 69) then
          let '(sgn, w'') := match w' with 43 :: x => (1%Z, x) | 45 :: x => ((-1)%Z, x) | _ => (1%Z, w') end in
          let (ed, r) := digits w'' in
          (Z.mul sgn (digits_value ed), match ed, r with _ :: _, [] => true | _, _ => false end)
        else (0%Z, false)
    end in
  if int_ok && frac_ok && exp_ok then
    let m := digits_value (ip ++ fp) in
    Some (scale (if neg then - m else m) (e - Z.of_nat (List.length fp)))%Z
  else None.

Definition classify (w : jstr) : option jvalue :=
  if jstr_eqb w (u "true") then Some (JBool true)
  else if jstr_eqb w (u "false") then Some (JBool false)
  else if jstr_eqb w (u "null") then Some JNull
  else match parse_number w with Some q => Some (JNum q) | None => None end.

Fixpoint parse_value (fuel : nat) (ts : list token) {struct fuel} : option (jvalue * list token) :=
  match fuel with
  | O => None
  | S f =>
      match ts with
      | TLBrace :: TRBrace :: r => Some (JObj [], r)
      | TLBrace :: r => parse_members f r []
      | TLBrack :: TRBrack :: r => Some (JArr [], r)
      | TLBrack :: r => parse_elements f r []
      | TString s :: r => Some (JStr s, r)
      | TBare w :: r => match classify w with Some v => Some (v, r) | None => None end
      | _ => None
      end
  end
with parse_members (fuel : nat) (ts : list token) (acc : list (jstr * jvalue)) {struct fuel}
    : option (jvalue * list token) :=
  match fuel with
  | O => None
  | S f =>
      match ts with
      | TString k :: TColon :: r =>
          match parse_value f r with
          | Some (v, TComma :: r') => parse_members f r' ((k, v) :: acc)
          | Some (v, TRBrace :: r') => Some (JObj (rev ((k, v) :: acc)), r')
          | _ => None
          end
      | _ => None
      end
  end
with parse_elements (fuel : nat) (ts : list token) (acc : list jvalue) {struct fuel}
    : option (jvalue * list token) :=
  match fuel with
  | O => None
  | S f =>
      match parse_value f ts with
      | Some (v, TComma :: r') => parse_elements f r' (v :: acc)
      | Some (v, TRBrack :: r') => Some (JArr (rev (v :: acc)), r')
      | _ => None
      end
  end.

Definition parse_tokens (ts : list token) : option jvalue :=
  match parse_value (S (List.length ts)) ts with Some (v, []) => Some v | _ => None end.

(** [JSON.parse(text)]; [None] is a thrown [SyntaxError]. *)
Definition JSON_parse (t : jstr) : option jvalue :=
  match lex strict_ctrl t with Some ts => parse_tokens ts | None => None end.

End Json.

(** ** src/lib/json.ts *)
Module JsonSafe.
Import Json.
Local Open Scope N_scope.

(** The re-scan loop of [parseJsonSafe], with the replacement written for a
    control code unit inside a string as a parameter [ctrl]. *)
Fixpoint rescan (ctrl : N -> jstr) (inString escape : bool) (raw : jstr) : jstr :=
  match raw with
  | [] => []
  | c :: raw' =>
      if escape then c :: rescan ctrl inString false raw'
      else if c =? 92 then c :: rescan ctrl inString true raw'
      else if negb inString then
        (if c =? 34 then c :: rescan ctrl true false raw' else c :: rescan ctrl false false raw')
      else if c =? 34 then c :: rescan ctrl false false raw'
      else if c <=? 31 then ctrl c ++ rescan ctrl true false raw'
      else c :: rescan ctrl true false raw'
  end.

(** [if (code === 10) out.push("\\n"); else if (code === 13) out.push("\\r");
    else if (code === 9) out.push("\\t"); else out.push(" ");] *)
Definition control_replacement (c : N) : jstr :=
  if c =? 10 then [92; 110] else if c =? 13 then [92; 114]
  else if c =? 9 then [92; 116] else [32].

(** [parseJsonSafe(raw)]: [None] is the [SyntaxError] of the second parse. *)
Definition parseJsonSafe (raw : jstr) : option jvalue :=
  match JSON_parse raw with
  | Some v => Some v
  | None => JSON_parse (rescan control_replacement false false raw)
  end.

(** The spec's "correctly escaped original": every raw control code unit
    inside a string literal written as its JSON escape ([\n], [\r], [\t],
    otherwise [\u00XX]). *)
Definition hex_digit (n : N) : N := if n <? 10 then 48 + n else 87 + n.

Definition json_escape (c : N) : jstr :=
  if c =? 10 then [92; 110] else if c =? 13 then [92; 114]
  else if c =? 9 then [92; 116]
  else [92; 117; 48; 48; hex_digit (c / 16); hex_digit (c mod 16)].

Definition escape_controls (raw : jstr) : jstr := rescan json_escape false false raw.

(** The control code units inside string literals, as the rescan meets them. *)
Fixpoint controls_in_strings (inString escape : bool) (raw : jstr) : list N :=
  match raw with
  | [] => []
  | c :: raw' =>
      if escape then controls_in_strings inString false raw'
      else if c =? 92 then controls_in_strings inString true raw'
      else if negb inString then
        (if c =? 34 then controls_in_strings true false raw' else controls_in_strings false false raw')
      else if c =? 34 then controls_in_strings false false raw'
      else if c <=? 31 then c :: controls_in_strings true false raw'
      else controls_in_strings true false raw'
  end.

(** Control code units other than newline, carriage return and tab inside
    strings replaced by a space. *)
Definition blank_other (c : N) : jstr :=
  if (c =? 10) || (c =? 13) || (c =? 9) then [c] else [32].

Definition blank_other_controls (raw : jstr) : jstr := rescan blank_other false false raw.

(** Writing [uq] for source texts: an apostrophe stands for a double quote. *)
Definition uq (s : string) : jstr := map (fun c => if c =? 39 then 34 else c) (u s).

End JsonSafe.

(** ** src/app/actions/analyzeTicket.ts *)
Module AnalyzeTicket.
Import Json JsonSafe Search ExcelParser.
Local Open Scope N_scope.

(** *** JavaScript numbers and conversions

    A number is NaN, a finite value (an exact rational: rounding to a double
    is not modelled) or one of the infinities. *)
Inductive jsnum := NaN | Fin (q : Q) | PosInf | NegInf.

(** [Math.max(a, b)] and [Math.min(a, b)]: NaN if either argument is NaN. *)
Definition Math_max (a b : jsnum) : jsnum :=
  match a, b with
  | NaN, _ | _, NaN => NaN
  | PosInf, _ | _, PosInf => PosInf
  | NegInf, y => y
  | x, NegInf => x
  | Fin p, Fin q => if Qle_bool q p then Fin p else Fin q
  end.

Definition Math_min (a b : jsnum) : jsnum :=
  match a, b with
  | NaN, _ | _, NaN => NaN
  | NegInf, _ | _, NegInf => NegInf
  | PosInf, y => y
  | x, PosInf => x
  | Fin p, Fin q => if Qle_bool p q then Fin p else Fin q
  end.

(** Digits of a radix-[b] integer literal ([0x], [0o], [0b] forms). *)
Definition radix_digit (b c : N) : option N :=
  match hex_val c with Some d => if d <? b then Some d else None | None => None end.

Fixpoint radix_value (b : N) (acc : Z) (s : jstr) : option Z :=
  match s with
  | [] => Some acc
  | c :: s' =>
      match radix_digit b c with
      | Some d => radix_value b (Z.of_N b * acc + Z.of_N d)%Z s'
      | None => None
      end
  end.

Definition radix_literal (b : N) (s : jstr) : jsnum :=
  match s with
  | [] => NaN
  | _ => match radix_value b 0%Z s with Some z => Fin (inject_Z z) | None => NaN end
  end.

(** StrUnsignedDecimalLiteral: [Infinity], or digits with an optional dot and
    fraction (at least one digit in all) and an optional exponent. *)
Definition unsigned_decimal (neg : bool) (w : jstr) : jsnum :=
  if jstr_eqb w (u "Infinity") then (if neg then NegInf else PosInf) else
  let (ip, w2) := digits w in
  let (fp, w3) := match w2 with 46 :: w' => digits w' | _ => ([], w2) end in
  let '(e, exp_ok) :=
    match w3 with
    | [] => (0%Z, true)
    | c :: w' =>
        if (c =? 101) || (c =? 69) then
          let '(sgn, w'') := match w' with 43 :: x => (1%Z, x) | 45 :: x => ((-1)%Z, x) | _ => (1%Z, w') end in
          let (ed, r) := digits w'' in
          (Z.mul sgn (digits_value ed), match ed, r with _ :: _, [] => true | _, _ => false end)
        else (0%Z, false)
    end in
  match ip ++ fp with
  | [] => NaN
  | m_digits =>
      if exp_ok then
        let m := digits_value m_digits in
        Fin (scale (if neg then - m else m) (e - Z.of_nat (List.length fp)))%Z
      else NaN
  end.

(** StringToNumber: the trimmed text; empty is 0. *)
Definition StringToNumber (s : jstr) : jsnum :=
  match trim s with
  | [] => Fin 0
  | 48 :: x :: r =>
      if (x =? 120) || (x =? 88) then radix_literal 16 r
      else if (x =? 111) || (x =? 79) then radix_literal 8 r
      else if (x =? 98) || (x =? 66) then radix_literal 2 r
      else unsigned_decimal false (48 :: x :: r)
  | 43 :: w => unsigned_decimal false w
  | 45 :: w => unsigned_decimal true w
  | w => unsigned_decimal false w
  end.

(** [Number(v)] for a JSON value whose conversion to a primitive does not
    throw (see [prim_throws] below). An array is
    converted through its string form [join(",")]: [] is 0, a one-element
    array converts as the string of its element (null gives the empty
    string, a boolean a word, an object [[object Object]]), and two or more
    elements give a comma, so NaN. *)
Fixpoint to_number_value (v : jvalue) : jsnum :=
  match v with
  | JNull => Fin 0
  | JBool b => if b then Fin 1 else Fin 0
  | JNum q => Fin q
  | JStr s => StringToNumber s
  | JArr [] => Fin 0
  | JArr [x] => match x with JBool _ | JObj _ => NaN | _ => to_number_value x end
  | JArr _ => NaN
  | JObj _ => NaN
  end.

(** [a ?? b], [None] being null or undefined. *)
Definition coalesce {A} (a : option A) (b : A) : A := match a with Some x => x | None => b end.

(** Truthiness of a property value ([None] is [undefined]). *)
Definition truthy (o : option jvalue) : bool :=
  match o with
  | None | Some JNull => false
  | Some (JBool b) => b
  | Some (JNum q) => negb (Qeq_bool q 0)
  | Some (JStr s) => match s with [] => false | _ => true end
  | Some _ => true
  end.

(** Property access [v.k] on a value that is not null: the last member
    named [k] of an object (as [JSON.parse] keeps it), [undefined] on the
    other values for the property names the code reads. *)
Definition lookup_last (k : jstr) (m : list (jstr * jvalue)) : option jvalue :=
  fold_left (fun acc kv => if jstr_eqb k (fst kv) then Some (snd kv) else acc) m None.

Definition get (v : jvalue) (k : jstr) : option jvalue :=
  match v with JObj m => lookup_last k m | _ => None end.

(** [String.prototype.toUpperCase] per code unit for the Basic Latin and
    Latin-1 ranges: sharp s becomes SS, micro sign and y diaeresis leave
    the range. As for [lower_unit], a partial model: cased letters above
    U+00FF are left unchanged, so it agrees with JavaScript on text whose
    lowercase letters are all at or below U+00FF. *)
Definition upper_unit (c : N) : jstr :=
  if ((97 <=? c) && (c <=? 122)) || ((224 <=? c) && (c <=? 254) && negb (c =? 247)) then [c - 32]
  else if c =? 223 then [83; 83] else if c =? 181 then [924] else if c =? 255 then [376]
  else [c].

Definition toUpperCase (s : jstr) : jstr := flat_map upper_unit s.

(** [text.match(/\{[\s\S]*\}/)?.[0]]: from the first open brace that has a
    close brace after it, to the last close brace (the greedy star tries the
    longest run first). *)
Fixpoint last_close_prefix (s : jstr) : option jstr :=
  match s with
  | [] => None
  | c :: s' =>
      match last_close_prefix s' with
      | Some p => Some (c :: p)
      | None => if c =? 125 then Some [c] else None
      end
  end.

Fixpoint brace_match (s : jstr) : option jstr :=
  match s with
  | [] => None
  | c :: s' =>
      if c =? 123 then
        match last_close_prefix s' with Some p => Some (c :: p) | None => brace_match s' end
      else brace_match s'
  end.


(** [String(v)] for a value whose conversion to a primitive does not throw;
    [Number::toString] is the environment's [number_to_string]. *)
Fixpoint join_with (sep : jstr) (l : list jstr) : jstr :=
  match l with
  | [] => []
  | [w] => w
  | w :: l' => w ++ sep ++ join_with sep l'
  end.

Fixpoint js_String (number_to_string : Q -> jstr) (v : jvalue) : jstr :=
  match v with
  | JNull => u "null"
  | JBool b => if b then u "true" else u "false"
  | JNum q => number_to_string q
  | JStr s => s
  | JArr l =>
      join_with [44]
        ((fix elems (l : list jvalue) : list jstr :=
            match l with
            | [] => []
            | x :: l' => match x with JNull => [] | _ => js_String number_to_string x end :: elems l'
            end) l)
  | JObj _ => u "[object Object]"
  end.

(** [ToPrimitive] of a JSON value (in [String], [Number] and template
    literals) throws a [TypeError] exactly when it meets an object with an
    own [toString] property: a JSON value is never callable, so
    [OrdinaryToPrimitive] skips that property, and the inherited [valueOf]
    returns the object itself, not a primitive (an own [valueOf] is skipped
    too). Other objects give [[object Object]]. An array converts through
    [join], which converts each element that is not null. *)
Fixpoint prim_throws (v : jvalue) : bool :=
  match v with
  | JObj m => existsb (fun kv => jstr_eqb (fst kv) (u "toString")) m
  | JArr l =>
      (fix any (l : list jvalue) : bool :=
         match l with [] => false | x :: l' => prim_throws x || any l' end) l
  | _ => false
  end.

(** [String(v)]; [None] is the thrown [TypeError]. *)
Definition js_ToString (number_to_string : Q -> jstr) (v : jvalue) : option jstr :=
  if prim_throws v then None else Some (js_String number_to_string v).

(** [Number(v)], [Some NaN] for [undefined]; [None] is the thrown [TypeError]. *)
Definition Number (o : option jvalue) : option jsnum :=
  match o with
  | None => Some NaN
  | Some v => if prim_throws v then None else Some (to_number_value v)
  end.

(** *** Types *)
Record TicketRow := mkTicket {
  Ticket_Number : jstr; Subject : option jstr; Description : option jstr }.

Record LearnedArticle := mkLearned {
  la_id : jstr; la_title : jstr; la_body : jstr; la_ticketId : jstr }.

Inductive SourceKind := seed | learned.

Record KnowledgeSource := mkSource {
  ks_id : jstr; ks_title : jstr; ks_snippet : jstr; ks_source : SourceKind; ks_ticketId : option jstr }.

Record RecommendedResource := mkResource {
  rr_type : jstr; rr_id : jstr; rr_title : option jstr }.

Inductive Compliance := SAFE | UNSAFE | UNKNOWN.

(** [AnalyzeTicketResult]. [solution] is whatever [parsed.solution ?? ...]
    gives (the type annotation is not checked at run time); [error] is
    [None] when the field is absent. *)
Record AnalyzeTicketResult := mkResult {
  solution : jvalue;
  confidence_score : jsnum;
  new_knowledge_draft : option jstr;
  compliance_status : Compliance;
  sources_used : list KnowledgeSource;
  recommended_resource : option RecommendedResource;
  qa_score : option jsnum;
  red_flags : list jstr;
  coaching_tip : option jstr;
  error : option jstr }.

(** What the server action reads from its environment: the API key, the
    spreadsheet data (loaded without failure), [getQAEvaluationPromptText]
    ([inl] is the message of an exception it throws), [Number::toString],
    and the messages of the engine's [SyntaxError], of the [TypeError] of
    reading a property of null, and of the [TypeError] of converting an
    object to a primitive. *)
Record Env := mkEnv {
  api_key : option jstr;
  getTicketById : jstr -> option TicketRow;
  knowledge : list KnowledgeArticleRow;
  qa_prompt : jstr + jstr;
  number_to_string : Q -> jstr;
  syntax_error_message : jstr;
  type_error_message : jstr;
  conversion_error_message : jstr }.

(** The outcome of one [model.generateContent(...)] call: the promise
    rejects with a message, or it resolves and [response.text()] throws or
    returns a string ([None] is [undefined]). *)
Inductive reply :=
  | Rejected (msg : jstr)
  | TextThrows (msg : jstr)
  | Text (t : option jstr).

(** *** The server action *)

(** [a || b] on strings. *)
Definition or_str (a : option jstr) (b : jstr) : jstr :=
  match a with Some (c :: s) => c :: s | _ => b end.

Definition opt_bind {A B} (o : option A) (f : A -> option B) : option B :=
  match o with Some x => f x | None => None end.

Definition missing_key_result : AnalyzeTicketResult :=
  mkResult (JStr (u "Error: Gemini API key not configured.")) (Fin 0) None UNKNOWN [] None None [] None
    (Some (u "Missing API key")).

(** The result built in the outer [catch (e)], [message] being
    [e instanceof Error ? e.message : String(e)]. *)
Definition failure_result (message : jstr) : AnalyzeTicketResult :=
  mkResult (JStr (u "Analysis failed: " ++ message)) (Fin 0) None UNKNOWN [] None None [] None
    (Some message).

Definition learned_source (a : LearnedArticle) : KnowledgeSource :=
  mkSource (la_id a) (la_title a) (firstn 200 (la_body a)) learned (Some (la_ticketId a)).

Definition seed_source (a : KnowledgeArticleRow) : KnowledgeSource :=
  mkSource (KB_Article_ID a) (firstn 120 (opt_str (Title a))) (firstn 200 (opt_str (Body a))) seed None.

(** The Stage 2 variables [compliance_status], [qa_score], [red_flags],
    [coaching_tip]. *)
Record Stage2 := mkStage2 {
  st_compliance : Compliance; st_qa_score : option jsnum; st_red_flags : list jstr;
  st_coaching_tip : option jstr }.

Definition stage2_init : Stage2 := mkStage2 UNKNOWN None [] None.

(** The compliance prompt [`...${solution.slice(0, 1200)}`] is built
    without throwing: [solution] is a string, or an array whose first 1200
    elements convert to strings. On the other values [slice] is missing or
    not callable, a [TypeError]. The QA prompt converts [solution.slice(0,
    1000)], a part of the same elements, so it throws only if the first
    prompt has thrown. *)
Definition slice_ok (v : jvalue) : bool :=
  match v with
  | JStr _ => true
  | JArr l => negb (prim_throws (JArr (firstn 1200 l)))
  | _ => false
  end.

Fixpoint strings_of (l : list jvalue) : list jstr :=
  match l with
  | [] => []
  | JStr s :: l' => s :: strings_of l'
  | _ :: l' => strings_of l'
  end.

Definition nonempty (s : jstr) : bool := match s with [] => false | _ => true end.

(** [complianceText = text()?.trim()?.toUpperCase() ?? ...], the empty string by default, then
    [complianceText.includes("UNSAFE") ? "UNSAFE" : "SAFE"]. *)
Definition compliance_of (ct : option jstr) : Compliance :=
  let complianceText := match ct with Some s => toUpperCase (trim s) | None => [] end in
  if includes complianceText (u "UNSAFE") then UNSAFE else SAFE.

(** [text()?.trim()], the empty string for [undefined]. *)
Definition reply_text (t : option jstr) : jstr := match t with Some s => trim s | None => [] end.

(** The body of the inner [try]; its [catch {}] keeps the variables as the
    body left them. *)
Definition stage2 (solution : jvalue) (complianceRes qaRes : reply) : Stage2 :=
  if negb (slice_ok solution) then stage2_init else
  match complianceRes, qaRes with
  | Rejected _, _ | _, Rejected _ => stage2_init
  | TextThrows _, _ => stage2_init
  | Text ct, _ =>
      let status := compliance_of ct in
      let after_compliance := mkStage2 status None [] None in
      match qaRes with
      | Text qt =>
          match brace_match (reply_text qt) with
          | None => after_compliance
          | Some m =>
              match parseJsonSafe m with
              | None | Some JNull => after_compliance
              | Some qaParsed =>
                  let qa := match get qaParsed (u "qa_score") with
                            | Some (JNum q) => Some (Math_max (Fin 0) (Math_min (Fin 100) (Fin q)))
                            | _ => None end in
                  let flags := match get qaParsed (u "red_flags") with
                               | Some (JArr l) => strings_of l | _ => [] end in
                  let tip := match get qaParsed (u "coaching_tip") with
                             | Some (JStr s) => if nonempty (trim s) then Some (trim s) else None
                             | _ => None end in
                  mkStage2 status qa flags tip
              end
          end
      | _ => after_compliance
      end
  end.

(** [parsed.new_knowledge_draft && String(..).trim() ? String(..).trim() : null];
    the outer [None] is the [TypeError] of [String]. *)
Definition draft_of (nts : Q -> jstr) (d : option jvalue) : option (option jstr) :=
  match d with
  | Some v =>
      if truthy d then
        match js_ToString nts v with
        | Some s => Some (if nonempty (trim s) then Some (trim s) else None)
        | None => None
        end
      else Some None
  | None => Some None
  end.

(** [recommended_resource] from [rr = parsed.recommended_resource]; the
    outer [None] is the [TypeError] of [String(rr.id)] or
    [String(rr.title)]. *)
Definition resource_of (nts : Q -> jstr) (rr : option jvalue) : option (option RecommendedResource) :=
  match rr with
  | Some r =>
      let t := get r (u "type") in
      let i := get r (u "id") in
      let ti := get r (u "title") in
      if truthy rr && truthy t && truthy i then
        match t, i with
        | Some (JStr ty), Some iv =>
            if jstr_eqb ty (u "KB") || jstr_eqb ty (u "SCRIPT") then
              match js_ToString nts iv with
              | None => None
              | Some id =>
                  match ti with
                  | Some tv =>
                      if truthy ti then
                        match js_ToString nts tv with
                        | Some title => Some (Some (mkResource ty id (Some (firstn 120 title))))
                        | None => None
                        end
                      else Some (Some (mkResource ty id None))
                  | None => Some (Some (mkResource ty id None))
                  end
              end
            else Some None
        | _, _ => Some None
        end
      else Some None
  | None => Some None
  end.

(** [jsonStr]: the braced part of the reply, else the reply. *)

Definition json_candidate (text : jstr) : jstr :=
  match brace_match text with Some m => m | None => text end.

(** The body of the outer [try]; [inl] is the message of what it throws.
    After the inner [try] of Stage 2, [String] in [recommended_resource]
    and [Number] and [String] in the returned object may throw the same
    [TypeError], caught by the outer [catch]. *)
Definition analysis (env : Env) (sources : list KnowledgeSource) (r1 complianceRes qaRes : reply)
    : jstr + AnalyzeTicketResult :=
  match r1 with
  | Rejected m | TextThrows m => inl m
  | Text t =>
      match parseJsonSafe (json_candidate (reply_text t)) with
      | None => inl (syntax_error_message env)
      | Some JNull => inl (type_error_message env)
      | Some parsed =>
          let sol := match get parsed (u "solution") with
                     | None | Some JNull => JStr (u "No solution generated.")
                     | Some v => v end in
          match qa_prompt env with
          | inl m => inl m
          | inr _ =>
              let s2 := stage2 sol complianceRes qaRes in
              match resource_of (number_to_string env) (get parsed (u "recommended_resource")) with
              | None => inl (conversion_error_message env)
              | Some recommended_resource =>
                  match Number (get parsed (u "confidence_score")) with
                  | None => inl (conversion_error_message env)
                  | Some n =>
                      match draft_of (number_to_string env) (get parsed (u "new_knowledge_draft")) with
                      | None => inl (conversion_error_message env)
                      | Some d =>
                          inr (mkResult sol
                                 (Math_min (Fin 1) (Math_max (Fin 0) (coalesce (Some n) (Fin (1 # 2)))))
                                 d (st_compliance s2) sources recommended_resource
                                 (st_qa_score s2) (st_red_flags s2) (st_coaching_tip s2) None)
                      end
                  end
              end
          end
      end
  end.

(** [analyzeTicket(ticketId, transcript, learnedArticles)], the three
    [generateContent] calls answered by [r1] (Stage 1), [complianceRes] and
    [qaRes] (Stage 2). [relevantScripts] and the prompt texts only feed the
    model and are left out. *)
Definition analyzeTicket (env : Env) (ticketId transcript : jstr) (learnedArticles : list LearnedArticle)
    (r1 complianceRes qaRes : reply) : AnalyzeTicketResult :=
  if negb (truthy (option_map JStr (api_key env))) then missing_key_result else
  let ticket := getTicketById env ticketId in
  let issueText := or_str (Some transcript)
                     (or_str (opt_bind ticket Description)
                        (or_str (opt_bind ticket Subject) (u "No description provided."))) in
  let searchTerms := extractSearchTerms issueText in
  let relevantArticles := searchKnowledgeArticles (knowledge env) searchTerms 6%nat in
  let seedArticles := match relevantArticles with [] => firstn 5 (knowledge env) | _ => relevantArticles end in
  let sources := map learned_source learnedArticles ++ map seed_source seedArticles in
  match analysis env sources r1 complianceRes qaRes with
  | inl message => failure_result message
  | inr res => res
  end.

End AnalyzeTicket.

(** ** The dashboard component (src/unnamed/part_000) *)
Module Dashboard.
Import Json.
Local Open Scope N_scope.

(** *** Persisted records *)
Inductive EventType := gap_detected | draft_proposed | approved.

Record PublishedArticle := mkPublished {
  pa_id : jstr; pa_title : jstr; pa_body : jstr; pa_publishedAt : N; pa_ticketId : jstr }.

Record LearningEvent := mkEvent {
  le_type : EventType; le_ticketId : jstr; le_kbId : option jstr; le_label : jstr; le_ts : N }.

Record SessionLineageRow := mkLineage {
  KB_Article_ID : jstr; Source_Type : jstr; Source_ID : jstr; Evidence_Snippet : option jstr }.

(** The three lists [publishedArticles], [learningLog], [sessionLineage]. *)
Record Session := mkSession {
  published : list PublishedArticle; learning : list LearningEvent; lineage : list SessionLineageRow }.

Definition empty_session : Session := mkSession [] [] [].

Definition all_empty (s : Session) : bool :=
  match published s, learning s, lineage s with [], [], [] => true | _, _, _ => false end.

(** *** [loadPersistedState]

    The stored lists are cast, not checked: on hydration they are arrays of
    arbitrary JSON values. [getItem] is the outcome of
    [localStorage.getItem(STORAGE_KEY)]: [None] when it throws, [Some None]
    when it returns null. *)
Record LoadedState := mkLoaded {
  l_published : list jvalue; l_learning : list jvalue; l_lineage : list jvalue }.

Definition loaded_empty : LoadedState := mkLoaded [] [] [].

(** [Array.isArray(x) ? x : []] *)
Definition array_or_empty (o : option jvalue) : list jvalue :=
  match o with Some (JArr l) => l | _ => [] end.

(** The body of the [try]: [None] is a thrown exception ([getItem] failing,
    a [SyntaxError] of [JSON.parse], or reading a property of [null]). *)
Definition load_body (getItem : option (option jstr)) : option LoadedState :=
  match getItem with
  | None => None
  | Some None | Some (Some []) => Some loaded_empty
  | Some (Some raw) =>
      match JSON_parse raw with
      | None | Some JNull => None
      | Some data =>
          Some (mkLoaded (array_or_empty (AnalyzeTicket.get data (u "published")))
                         (array_or_empty (AnalyzeTicket.get data (u "learning")))
                         (array_or_empty (AnalyzeTicket.get data (u "lineage"))))
      end
  end.

(** [loadPersistedState()]; [has_window] is [typeof window !== "undefined"]. *)
Definition loadPersistedState (has_window : bool) (getItem : option (option jstr)) : LoadedState :=
  if negb has_window then loaded_empty else
  match load_body getItem with Some st => st | None => loaded_empty end.

(** *** Persistence

    The durable store holds the last session written ([None]: nothing
    written yet, or what an earlier visit left). [setItem_ok] says whether
    [localStorage.setItem] succeeds; the [catch] ignores a failure. *)
Record Dash := mkDash { mem : Session; stored : option Session }.

Definition savePersistedState (setItem_ok : bool) (s : Session) (store : option Session) : option Session :=
  if setItem_ok then Some s else store.

(** The effect on [[publishedArticles, learningLog, sessionLineage]]. *)
Definition persist_effect (setItem_ok : bool) (d : Dash) : Dash :=
  if all_empty (mem d) then d
  else mkDash (mem d) (savePersistedState setItem_ok (mem d) (stored d)).

(** [`KB-${Date.now()}`]: the decimal digits of a natural number. *)
Fixpoint uint_digits (d : Decimal.uint) : jstr :=
  match d with
  | Decimal.Nil => []
  | Decimal.D0 d' => 48 :: uint_digits d' | Decimal.D1 d' => 49 :: uint_digits d'
  | Decimal.D2 d' => 50 :: uint_digits d' | Decimal.D3 d' => 51 :: uint_digits d'
  | Decimal.D4 d' => 52 :: uint_digits d' | Decimal.D5 d' => 53 :: uint_digits d'
  | Decimal.D6 d' => 54 :: uint_digits d' | Decimal.D7 d' => 55 :: uint_digits d'
  | Decimal.D8 d' => 56 :: uint_digits d' | Decimal.D9 d' => 57 :: uint_digits d'
  end.

Definition N_to_string (n : N) : jstr := uint_digits (N.to_uint n).

(** *** Title and body of a draft

    [/Title:\s*(.+?)(?:\n|$)/i] and the body pattern ([Body:], [\s*], then a
    capture of [[\s\S]*], flag [i]), run as the
    backtracking matcher runs them: the first start position where the
    pattern matches; [\s*] tries the longest run first, [.+?] the shortest. *)

(** A case-insensitive match of an ASCII marker: the text after it. *)
Definition ci_eq (a c : N) : bool :=
  (c =? a) || ((97 <=? a) && (a <=? 122) && (c =? a - 32)).

Fixpoint marker_ci (m s : jstr) : option jstr :=
  match m, s with
  | [], _ => Some s
  | a :: m', c :: s' => if ci_eq a c then marker_ci m' s' else None
  | _ :: _, [] => None
  end.

(** [(.+?)(?:\n|$)] after one character [.] has been taken: [acc] holds the
    characters taken (reversed). *)
Fixpoint lazy_line (acc : jstr) (s : jstr) : option jstr :=
  match s with
  | [] => Some (rev acc)
  | c :: s' =>
      if c =? 10 then Some (rev acc)
      else if is_line_term c then None
      else lazy_line (c :: acc) s'
  end.

Definition capture_line (s : jstr) : option jstr :=
  match s with
  | c :: s' => if is_line_term c then None else lazy_line [c] s'
  | [] => None
  end.

(** [\s*] followed by the capture. *)
Fixpoint ws_then_line (s : jstr) : option jstr :=
  match s with
  | c :: s' =>
      if is_ws c then
        match ws_then_line s' with Some x => Some x | None => capture_line s end
      else capture_line s
  | [] => capture_line []
  end.

Definition title_at (s : jstr) : option jstr :=
  match marker_ci (u "title:") s with Some r => ws_then_line r | None => None end.

(** [\s*] then the capture of [[\s\S]*]: the longest run of whitespace, then all the rest. *)
Definition body_at (s : jstr) : option jstr :=
  match marker_ci (u "body:") s with Some r => Some (trim_start r) | None => None end.

(** [str.match(re)] for a non-global [re]: the first start position (up to
    the end of the string) where [at] succeeds. *)
Fixpoint first_match {A} (at_ : jstr -> option A) (s : jstr) : option A :=
  match at_ s with
  | Some x => Some x
  | None => match s with [] => None | _ :: s' => first_match at_ s' end
  end.

(** [titleMatch ? titleMatch[1].trim() : "New knowledge article"] *)
Definition draft_title (draft : jstr) : jstr :=
  match first_match title_at draft with Some t => trim t | None => u "New knowledge article" end.

(** [bodyMatch ? bodyMatch[1].trim() : newKnowledgeDraft] *)
Definition draft_body (draft : jstr) : jstr :=
  match first_match body_at draft with Some b => trim b | None => draft end.

(** *** The transitions on the three lists *)

(** [handleApprovePublish()]: [draft] is [newKnowledgeDraft], [ticket] the
    [Ticket_Number] of [selectedTicket], [now1], [now2], [now3] the three
    [Date.now()] readings (id, [publishedAt], [ts]). [None]: the early
    return. Besides the lists it sets [newKnowledgeDraft] to null and
    [justPublishedId] to the id, returned as the second component. *)
Definition handleApprovePublish (draft ticket : option jstr) (now1 now2 now3 : N) (s : Session)
    : option (Session * jstr) :=
  match draft, ticket with
  | Some (c :: d), Some ticketId =>
      let newKnowledgeDraft := c :: d in
      let title := draft_title newKnowledgeDraft in
      let bodyFull := draft_body newKnowledgeDraft in
      let kbId := u "KB-" ++ N_to_string now1 in
      Some (mkSession
              (published s ++ [mkPublished kbId title bodyFull now2 ticketId])
              (learning s ++ [mkEvent approved ticketId (Some kbId) (u "Article approved & published") now3])
              (lineage s ++ [mkLineage kbId (u "Ticket") ticketId (Some (firstn 200 bodyFull))]),
            kbId)
  | _, _ => None
  end.

(** The end of an analysis ([onCallEnd], [runAnalyzeNow]): with a draft
    ([result.new_knowledge_draft] truthy) two events are appended. *)
Definition analysis_done (ticketId : jstr) (draft : option jstr) (ts1 ts2 : N) (s : Session)
    : option Session :=
  match draft with
  | Some (_ :: _) =>
      Some (mkSession (published s)
              (learning s ++ [mkEvent gap_detected ticketId None (u "Knowledge gap detected") ts1;
                              mkEvent draft_proposed ticketId None (u "Draft article proposed") ts2])
              (lineage s))
  | _ => None
  end.

(** The Dismiss draft button. *)
Definition dismiss_draft (ticket : option jstr) (ts : N) (s : Session) : option Session :=
  match ticket with
  | Some ticketId =>
      Some (mkSession (published s)
              (learning s ++ [mkEvent gap_detected ticketId None (u "Draft dismissed (not published)") ts])
              (lineage s))
  | None => None
  end.

(** What happens to the three lists: the hydration effect sets all three to
    a loaded session; the handlers above; anything else leaves them alone.
    [None]: no setter of the three lists runs, so the effect does not run. *)
Inductive event :=
  | Hydrate (loaded : Session)
  | AnalysisDone (ticketId : jstr) (draft : option jstr) (ts1 ts2 : N)
  | Approve (draft ticket : option jstr) (now1 now2 now3 : N)
  | Dismiss (ticket : option jstr) (ts : N)
  | OtherUpdate.

Definition apply_event (e : event) (s : Session) : option Session :=
  match e with
  | Hydrate loaded => Some loaded
  | AnalysisDone t d ts1 ts2 => analysis_done t d ts1 ts2 s
  | Approve d t n1 n2 n3 => option_map fst (handleApprovePublish d t n1 n2 n3 s)
  | Dismiss t ts => dismiss_draft t ts s
  | OtherUpdate => None
  end.

(** One transition followed by the effect (when a dependency changed). *)
Definition step (setItem_ok : bool) (e : event) (d : Dash) : Dash :=
  match apply_event e (mem d) with
  | Some s' => persist_effect setItem_ok (mkDash s' (stored d))
  | None => d
  end.

Fixpoint run (trace : list (bool * event)) (d : Dash) : Dash :=
  match trace with
  | [] => d
  | (ok, e) :: tr => run tr (step ok e d)
  end.

(** Mounting: the first render runs the effect on the empty initial lists,
    then the hydration effect sets the loaded session and the effect runs
    again. *)
Definition mount (stored0 : option Session) (loaded : Session) (ok0 ok1 : bool) : Dash :=
  step ok1 (Hydrate loaded) (persist_effect ok0 (mkDash empty_session stored0)).

End Dashboard.

(** ** src/lib/excel-parser.ts: the sheet loaders and lookups *)
Module ExcelData.
Import Json AnalyzeTicket.
Local Open Scope N_scope.

(** A row of the Conversations sheet (the fields the code reads). *)
Record ConversationRow := mkConversation {
  conv_Ticket_Number : jstr; Transcript : option jstr }.

(** [loadTickets()] and the other row loaders ([loadKnowledgeArticles],
    [loadConversations], [loadScripts], [loadLearningEvents],
    [loadKBLineage]): [cache] is the module variable, [wb] the outcome of
    reading the workbook: [None] when [readFileSync] or [XLSX.read] throws,
    [Some None] when the sheet is missing, [Some (Some rows)] its rows. A
    cached array is truthy even when empty. The first component is the
    value returned ([None]: the call throws), the second the new cache. *)
Definition load_cached {A} (cache : option (list A)) (wb : option (option (list A)))
    : option (list A) * option (list A) :=
  match cache with
  | Some c => (Some c, cache)
  | None =>
      match wb with
      | None => (None, cache)
      | Some None => (Some [], Some [])
      | Some (Some rows) => (Some rows, Some rows)
      end
  end.

(** Successive calls of a loader, each with the workbook as it is then. *)
Fixpoint load_runs {A} (cache : option (list A)) (wbs : list (option (option (list A))))
    : list (option (list A)) :=
  match wbs with
  | [] => []
  | wb :: wbs' => let (r, cache') := load_cached cache wb in r :: load_runs cache' wbs'
  end.

(** [getTicketById(ticketId)] over [loadTickets()]; the ticket numbers are
    read as strings, so [String(...)] leaves them alone. *)
Definition getTicketById (tickets : list TicketRow) (ticketId : jstr) : option TicketRow :=
  find (fun t => jstr_eqb (Ticket_Number t) ticketId) tickets.

(** [getTicketsForQueue(limit)]: [tickets.slice(0, limit)]. *)
Definition getTicketsForQueue (tickets : list TicketRow) (limit : nat) : list TicketRow :=
  firstn limit tickets.

(** [getConversationByTicketNumber(ticketNumber)]: [convos.find(...)]. *)
Definition getConversationByTicketNumber (convos : list ConversationRow) (ticketNumber : jstr)
    : option ConversationRow :=
  find (fun c => jstr_eqb (conv_Ticket_Number c) ticketNumber) convos.

(** A JavaScript [Map] with string keys, as its entries in insertion order:
    [set] on a present key replaces the value in place, on a new key
    appends an entry. *)
Fixpoint map_set {V} (k : jstr) (v : V) (m : list (jstr * V)) : list (jstr * V) :=
  match m with
  | [] => [(k, v)]
  | (k', v') :: m' => if jstr_eqb k' k then (k, v) :: m' else (k', v') :: map_set k v m'
  end.

(** [new Map(entries)]: [set] for each entry in order. *)
Definition Map_of {V} (entries : list (jstr * V)) : list (jstr * V) :=
  fold_left (fun m kv => map_set (fst kv) (snd kv) m) entries [].

Definition map_get {V} (k : jstr) (m : list (jstr * V)) : option V :=
  option_map snd (find (fun kv => jstr_eqb (fst kv) k) m).

(** [{ ...t, transcript: conv?.Transcript }] *)
Record QueueTicket := mkQueueTicket { q_ticket : TicketRow; transcript : option jstr }.

(** [getTicketsForQueueWithTranscript(limit)] *)
Definition getTicketsForQueueWithTranscript (tickets : list TicketRow) (convos : list ConversationRow)
    (limit : nat) : list QueueTicket :=
  let byTicket := Map_of (map (fun c => (conv_Ticket_Number c, c)) convos) in
  map (fun t => mkQueueTicket t (opt_bind (map_get (Ticket_Number t) byTicket) Transcript))
      (getTicketsForQueue tickets limit).

(** [if (row && row[0]) text += String(row[0]) + "\n";] for a row of
    [sheet_to_json(ws, { header: 1 })] ([None] is an empty cell); the outer
    [None] is the [TypeError] of [String]. *)
Definition row_line (nts : Q -> jstr) (row : list (option jvalue)) : option jstr :=
  match row with
  | Some v :: _ =>
      if truthy (Some v) then
        match js_ToString nts v with Some s => Some (s ++ [10]) | None => None end
      else Some []
  | _ => Some []
  end.

(** The loop over the rows: the first throw leaves it. *)
Fixpoint rows_text (nts : Q -> jstr) (rows : list (list (option jvalue))) : option jstr :=
  match rows with
  | [] => Some []
  | row :: rows' =>
      match row_line nts row with
      | Some l => match rows_text nts rows' with Some t => Some (l ++ t) | None => None end
      | None => None
      end
  end.

(** [getQAEvaluationPromptText(maxChars)] with the module variable
    [qaPromptCache]; [wb] as for [load_cached]. The cache is used only when
    it is a non-empty string. *)
Definition getQAEvaluationPromptText (nts : Q -> jstr) (qaPromptCache : option jstr)
    (wb : option (option (list (list (option jvalue))))) (maxChars : nat) : option jstr * option jstr :=
  match qaPromptCache with
  | Some (c :: s) => (Some (firstn maxChars (c :: s)), qaPromptCache)
  | _ =>
      match wb with
      | None => (None, qaPromptCache)
      | Some None => (Some [], qaPromptCache)
      | Some (Some rows) =>
          match rows_text nts rows with
          | Some text => (Some (firstn maxChars text), Some text)
          | None => (None, qaPromptCache)
          end
      end
  end.

(** Successive calls, each with its workbook and [maxChars]. *)
Fixpoint qa_runs (nts : Q -> jstr) (cache : option jstr)
    (calls : list (option (option (list (list (option jvalue)))) * nat)) : list (option jstr) :=
  match calls with
  | [] => []
  | (wb, n) :: calls' =>
      let (r, cache') := getQAEvaluationPromptText nts cache wb n in r :: qa_runs nts cache' calls'
  end.

End ExcelData.

(** ** src/app/actions/suggestTickets.ts *)
Module SuggestTickets.
Import Json JsonSafe AnalyzeTicket.
Local Open Scope N_scope.

(** [text.match(re)?.[0]] for [re] an open delimiter, [[\s\S]*], a close
    delimiter: as [brace_match], for any pair of delimiters. *)
Fixpoint last_close_of (cl : N) (s : jstr) : option jstr :=
  match s with
  | [] => None
  | c :: s' =>
      match last_close_of cl s' with
      | Some p => Some (c :: p)
      | None => if c =? cl then Some [c] else None
      end
  end.

Fixpoint delim_match (op cl : N) (s : jstr) : option jstr :=
  match s with
  | [] => None
  | c :: s' =>
      if c =? op then
        match last_close_of cl s' with Some p => Some (c :: p) | None => delim_match op cl s' end
      else delim_match op cl s'
  end.

(** [text.match(/\[[\s\S]*\]/)] *)
Definition bracket_match (s : jstr) : option jstr := delim_match 91 93 s.

Record SuggestedTicket := mkSuggested {
  sg_Subject : jstr; sg_Description : jstr; sg_Priority : jstr; sg_Category : jstr;
  sg_Transcript : option jstr }.

Record SuggestResult := mkSuggestResult { suggestions : list SuggestedTicket; s_error : option jstr }.

(** [t.k], [None] being null or undefined (what [??] and [!= null] test). *)
Definition nullish_get (t : jvalue) (k : jstr) : option jvalue :=
  match get t k with Some JNull => None | o => o end.

(** Sequencing of code that may throw; [inl] is the message. *)
Definition sbind {A B} (x : jstr + A) (f : A -> jstr + B) : jstr + B :=
  match x with inl m => inl m | inr a => f a end.

(** [String(v)] throwing [conversion_error_message]. *)
Definition conv (nts : Q -> jstr) (ce : jstr) (v : jvalue) : jstr + jstr :=
  match js_ToString nts v with Some s => inr s | None => inl ce end.

(** The [map] callback, its fields computed in order; [inl] is the message
    of what it throws: reading a property of [null]
    ([type_error_message]) or [String] of an object with an own
    [toString] ([conversion_error_message]). *)
Definition suggestion (nts : Q -> jstr) (type_error_message conversion_error_message : jstr)
    (t : jvalue) : jstr + SuggestedTicket :=
  let cv := conv nts conversion_error_message in
  match t with
  | JNull => inl type_error_message
  | _ =>
      sbind (cv (coalesce (nullish_get t (u "Subject"))
                   (coalesce (nullish_get t (u "subject")) (JStr (u "No subject"))))) (fun subject =>
      sbind (cv (coalesce (nullish_get t (u "Description"))
                   (coalesce (nullish_get t (u "description")) (JStr [])))) (fun description =>
      sbind (cv (coalesce (nullish_get t (u "Priority"))
                   (coalesce (nullish_get t (u "priority")) (JStr (u "Medium"))))) (fun priority =>
      sbind (cv (coalesce (nullish_get t (u "Category"))
                   (coalesce (nullish_get t (u "category")) (JStr (u "General"))))) (fun category =>
      sbind (match nullish_get t (u "Transcript") with
             | Some v => sbind (cv v) (fun x => inr (Some x))
             | None => match nullish_get t (u "transcript") with
                       | Some v => sbind (cv v) (fun x => inr (Some x))
                       | None => inr None
                       end
             end) (fun transcript =>
      inr (mkSuggested subject description priority category transcript))))))
  end.

(** [l.map(callback)]: the first throw aborts the whole map. *)
Fixpoint map_suggestions (nts : Q -> jstr) (te ce : jstr) (l : list jvalue) : jstr + list SuggestedTicket :=
  match l with
  | [] => inr []
  | t :: l' =>
      sbind (suggestion nts te ce t) (fun s => sbind (map_suggestions nts te ce l') (fun r => inr (s :: r)))
  end.

(** [suggestTickets(userPrompt)]: [apiKey] is the environment variable, [r]
    the outcome of the [generateContent] call, [syntax_error_message],
    [type_error_message] and [conversion_error_message] the messages of the
    engine's errors (as in [Env]). The prompt only feeds the model and is
    left out. *)
Definition suggestTickets (apiKey : option jstr) (nts : Q -> jstr)
    (syntax_error_message type_error_message conversion_error_message : jstr) (r : reply) : SuggestResult :=
  match apiKey with
  | None | Some [] => mkSuggestResult [] (Some (u "API key not configured"))
  | Some _ =>
      match r with
      | Rejected m | TextThrows m => mkSuggestResult [] (Some m)
      | Text t =>
          let text := reply_text t in
          let arr := match bracket_match text with
                     | Some m => parseJsonSafe m
                     | None => Some (JArr [])
                     end in
          match arr with
          | None => mkSuggestResult [] (Some syntax_error_message)
          | Some a =>
              let elems := match a with JArr l => l | _ => [] end in
              match map_suggestions nts type_error_message conversion_error_message (firstn 3 elems) with
              | inr s => mkSuggestResult s None
              | inl m => mkSuggestResult [] (Some m)
              end
          end
      end
  end.

End SuggestTickets.

(** ** src/app/api/tts/route.ts *)
Module TtsRoute.
Import Json AnalyzeTicket.
Local Open Scope N_scope.

(** The response of the ElevenLabs request: its status and its body. *)
Record Upstream := mkUpstream { up_status : N; up_body : jstr }.

(** [init.status] defaults to 200. *)
Inductive TtsResponse :=
  | JsonError (status : N) (error : jstr) (details : option jstr)
  | Audio (status : N) (content_type : jstr) (body : jstr)
  | Throws.

(** [POST(req)]: [apiKey] is the environment variable; [body] the value
    [req.json()] resolves to ([None]: it rejects, and the [catch] gives
    [{}]); [fetch] answers the request for a text ([None]: it rejects or a
    body read fails). The first component is the text sent upstream, if a
    request is sent; [Throws]: the handler rejects. *)
Definition POST (apiKey : option jstr) (body : option jvalue) (fetch : jstr -> option Upstream)
    : option jstr * TtsResponse :=
  match apiKey with
  | None | Some [] => (None, JsonError 500 (u "ElevenLabs API key not configured") None)
  | Some _ =>
      let b := match body with Some v => v | None => JObj [] end in
      match b with
      | JNull => (None, Throws)
      | _ =>
          let text := match get b (u "text") with
                      | Some (JStr s) => s
                      | _ => u "No transcript available."
                      end in
          let truncated := firstn 2500 text in
          (Some truncated,
           match fetch truncated with
           | None => Throws
           | Some res =>
               if (200 <=? up_status res) && (up_status res <=? 299) then Audio 200 (u "audio/mpeg") (up_body res)
               else JsonError (up_status res) (u "ElevenLabs TTS failed") (Some (up_body res))
           end)
      end
  end.

End TtsRoute.

(** ** The dashboard's derived views *)
Module DashboardView.
Import Json AnalyzeTicket ExcelData.
Local Open Scope N_scope.

(** [playCall()]: the text of the selected ticket
    ([transcript || Description || Subject || ...]) and the JSON body of its
    request to [/api/tts], [{ text: truncated }], as the route's
    [req.json()] reads it back. *)
Definition playCall_text (t : QueueTicket) : jstr :=
  or_str (transcript t) (or_str (Description (q_ticket t))
    (or_str (Subject (q_ticket t)) (u "No description available."))).

Definition playCall_body (t : QueueTicket) : jvalue :=
  JObj [(u "text", JStr (firstn 2500 (playCall_text t)))].

(** [transcriptFull.trim().split(/\s+/).filter(Boolean)] *)
Definition words (s : jstr) : list jstr := filter nonempty (split_ws [] false (trim s)).

(** [visibleTranscript]: the first [transcriptVisibleLength] words. *)
Definition visibleTranscript (transcriptFull : jstr) (transcriptVisibleLength : nat) : jstr :=
  join_sp (firstn transcriptVisibleLength (words transcriptFull)).

(** [runBatchSimulation()]: [analyze i t] is the result of the [i]-th
    [analyzeTicket] call, on ticket [t]. [None]: the early return. *)
Record BatchResult := mkBatch { total : nat; gaps : nat; fromKb : nat }.

Definition draft_truthy (d : option jstr) : bool := match d with Some (_ :: _) => true | _ => false end.

Fixpoint batch_loop {T} (analyze : nat -> T -> AnalyzeTicketResult) (i : nat) (toRun : list T)
    (gaps fromKb : nat) : nat * nat :=
  match toRun with
  | [] => (gaps, fromKb)
  | t :: ts =>
      if draft_truthy (new_knowledge_draft (analyze i t))
      then batch_loop analyze (S i) ts (S gaps) fromKb
      else batch_loop analyze (S i) ts gaps (S fromKb)
  end.

Definition runBatchSimulation {T} (allTickets : list T) (analyze : nat -> T -> AnalyzeTicketResult)
    : option BatchResult :=
  let toRun := firstn 3 allTickets in
  match toRun with
  | [] => None
  | _ => let (g, f) := batch_loop analyze 0 toRun 0 0 in Some (mkBatch (List.length toRun) g f)
  end.

End DashboardView.

(** * Proofs *)

(** ** Facts about the string primitives *)
Module JsStringFacts.
Local Open Scope N_scope.

Lemma jstr_eqb_eq a b : jstr_eqb a b = true <-> a = b.
Proof. unfold jstr_eqb; destruct (list_eq_dec N.eq_dec a b); split; congruence. Qed.

Lemma mem_In w l : mem w l = true <-> In w l.
Proof.
  unfold mem; rewrite existsb_exists; split.
  - intros [x [Hx He]]. apply jstr_eqb_eq in He; subst; exact Hx.
  - intros H; exists w; split; [exact H | apply jstr_eqb_eq; reflexivity].
Qed.

Lemma lower_unit_idem c : lower_unit (lower_unit c) = lower_unit c.
Proof.
  unfold lower_unit.
  destruct (((65 <=? c) && (c <=? 90)) || ((192 <=? c) && (c <=? 222) && negb (c =? 215))) eqn:E.
  - assert (Hn : (((65 <=? c + 32) && (c + 32 <=? 90))
                  || ((192 <=? c + 32) && (c + 32 <=? 222) && negb (c + 32 =? 215))) = false).
    { repeat rewrite orb_true_iff, ?andb_true_iff in E.
      apply not_true_iff_false; intro H.
      repeat rewrite orb_true_iff, ?andb_true_iff in H.
      rewrite ?negb_true_iff, ?N.leb_le, ?N.eqb_neq, ?N.eqb_eq in *.
      rewrite ?N.eqb_neq in *. lia. }
    rewrite Hn; reflexivity.
  - rewrite E; reflexivity.
Qed.

Lemma uniq_aux_spec seen l :
  NoDup (uniq_aux seen l) /\
  (forall w, In w (uniq_aux seen l) -> ~ In w seen /\ In w l).
Proof.
  revert seen; induction l as [|w l IH]; intros seen; simpl.
  - split; [constructor | tauto].
  - destruct (mem w seen) eqn:Hm.
    + destruct (IH seen) as [H1 H2]. split; [exact H1|].
      intros x Hx; destruct (H2 x Hx); split; auto.
    + destruct (IH (w :: seen)) as [H1 H2]. split.
      * constructor; [|exact H1]. intros Hin. destruct (H2 w Hin) as [Hn _]. apply Hn; left; reflexivity.
      * intros x [<-|Hx].
        -- split; [|left; reflexivity]. intros Hin. apply mem_In in Hin. congruence.
        -- destruct (H2 x Hx) as [Hn Hl]. split; [intros Hs; apply Hn; right; exact Hs | right; exact Hl].
Qed.

Lemma uniq_aux_id seen l :
  NoDup l -> (forall w, In w l -> ~ In w seen) -> uniq_aux seen l = l.
Proof.
  revert seen; induction l as [|w l IH]; intros seen Hnd Hs; simpl; [reflexivity|].
  inversion Hnd as [|? ? Hnin Hnd']; subst.
  destruct (mem w seen) eqn:Hm.
  - apply mem_In in Hm. exfalso; apply (Hs w); [left; reflexivity | exact Hm].
  - f_equal. apply IH; [exact Hnd'|].
    intros x Hx [<-|Hxs]; [exact (Hnin Hx) | apply (Hs x); [right; exact Hx | exact Hxs]].
Qed.

Lemma split_ws_chars cur b s t c :
  In t (split_ws cur b s) -> In c t -> In c cur \/ (In c s /\ is_ws c = false).
Proof.
  revert cur b; induction s as [|d s IH]; intros cur b Ht Hc; simpl in Ht.
  - destruct Ht as [<-|[]]. left; apply in_rev; exact Hc.
  - destruct (is_ws d) eqn:Hd.
    + destruct b.
      * destruct (IH cur true Ht Hc) as [H|[H1 H2]]; [left; exact H | right; split; [right|]; assumption].
      * destruct Ht as [<-|Ht]; [left; apply in_rev; exact Hc|].
        destruct (IH [] true Ht Hc) as [[]|[H1 H2]]. right; split; [right|]; assumption.
    + destruct (IH (d :: cur) false Ht Hc) as [[<-|H]|[H1 H2]].
      * right; split; [left; reflexivity | exact Hd].
      * left; exact H.
      * right; split; [right|]; assumption.
Qed.

Lemma split_ws_app cur b t s :
  t <> [] -> (forall c, In c t -> is_ws c = false) ->
  split_ws cur b (t ++ s) = split_ws (rev t ++ cur) false s.
Proof.
  revert cur b; induction t as [|c t IH]; intros cur b Hne Hw; [congruence|].
  simpl. rewrite (Hw c (or_introl eq_refl)).
  destruct t as [|c' t'].
  - reflexivity.
  - rewrite IH; [| discriminate | intros x Hx; apply Hw; right; exact Hx].
    simpl; rewrite <- !app_assoc; reflexivity.
Qed.

Lemma split_ws_join ts :
  ts <> [] -> (forall t, In t ts -> t <> [] /\ forall c, In c t -> is_ws c = false) ->
  split_ws [] false (join_sp ts) = ts.
Proof.
  intros Hne Hts.
  assert (G : forall cur b, split_ws cur b (join_sp ts) =
                match ts with [] => [rev cur] | t :: ts' => (rev cur ++ t) :: ts' end).
  { clear Hne. induction ts as [|t ts IH]; intros cur b; [reflexivity|].
    destruct (Hts t (or_introl eq_refl)) as [Ht Hw].
    destruct ts as [|t' ts'].
    - simpl. rewrite <- (app_nil_r t) at 1. rewrite split_ws_app by assumption.
      simpl. rewrite rev_app_distr, rev_involutive. reflexivity.
    - change (join_sp (t :: t' :: ts')) with (t ++ 32 :: join_sp (t' :: ts')).
      rewrite split_ws_app by assumption. simpl.
      rewrite IH by (intros x Hx; apply Hts; right; exact Hx).
      rewrite rev_app_distr, rev_involutive. reflexivity. }
  rewrite G. destruct ts; [congruence | reflexivity].
Qed.

End JsStringFacts.

(** ** Term extraction *)
Module ExtractProofs.
Import JsStringFacts ExcelParser.
Local Open Scope N_scope.

Example extract_example :
  extractSearchTerms (u "How do I reset the password? The password, again!") =
  [u "how"; u "reset"; u "password"; u "again"].
Proof. vm_compute. reflexivity. Qed.

Lemma filter_all {A} (f : A -> bool) l : (forall x, In x l -> f x = true) -> filter f l = l.
Proof.
  induction l as [|x l IH]; intros H; simpl; [reflexivity|].
  rewrite (H x (or_introl eq_refl)), IH; [reflexivity|]. intros y Hy; apply H; right; exact Hy.
Qed.

Lemma In_join_sp c ts : In c (join_sp ts) -> c = 32 \/ exists t, In t ts /\ In c t.
Proof.
  induction ts as [|t ts IH]; simpl; [tauto|].
  destruct ts as [|t' ts'].
  - intros H; right; exists t; split; [left; reflexivity | exact H].
  - intros H. apply in_app_or in H as [H|[H|H]].
    + right; exists t; split; [left; reflexivity | exact H].
    + left; symmetry; exact H.
    + destruct (IH H) as [E|[t0 [H1 H2]]]; [left; exact E | right; exists t0; split; [right|]; assumption].
Qed.

(** Every code unit of an extracted token is a lowercase word character. *)
Lemma token_chars text t c :
  In t (split_ws [] false (replace_non_word (toLowerCase text))) -> In c t ->
  is_word c = true /\ lower_unit c = c /\ is_ws c = false.
Proof.
  intros Ht Hc. destruct (split_ws_chars _ _ _ _ _ Ht Hc) as [[]|[Hin Hws]].
  unfold replace_non_word, toLowerCase in Hin. rewrite map_map in Hin.
  apply in_map_iff in Hin as [x [Hx _]].
  destruct (is_word (lower_unit x) || is_ws (lower_unit x)) eqn:E.
  - subst c. apply orb_true_iff in E as [E|E]; [|congruence].
    split; [exact E | split; [apply lower_unit_idem | exact Hws]].
  - subst c. vm_compute in Hws. discriminate.
Qed.

Lemma extracted_tokens text w :
  In w (extractSearchTerms text) ->
  keep_word w = true /\ In w (split_ws [] false (replace_non_word (toLowerCase text))).
Proof.
  unfold extractSearchTerms, uniq. intros H.
  destruct (uniq_aux_spec [] (filter keep_word (split_ws [] false (replace_non_word (toLowerCase text))))) as [_ H2].
  destruct (H2 w H) as [_ Hf]. apply filter_In in Hf as [Hf1 Hf2]. split; assumption.
Qed.

(** Claim C9: the extracted terms have no duplicates, no token of length at
    most 1 and no stopword; the empty text yields no term; extracting again
    from the space-joined output gives back the same list. *)
Theorem extractSearchTerms_spec text :
  NoDup (extractSearchTerms text) /\
  (forall w, In w (extractSearchTerms text) -> (1 < List.length w)%nat /\ ~ In w stop) /\
  extractSearchTerms [] = [] /\
  extractSearchTerms (join_sp (extractSearchTerms text)) = extractSearchTerms text.
Proof.
  set (r := extractSearchTerms text).
  assert (Hnd : NoDup r).
  { unfold r, extractSearchTerms, uniq. apply uniq_aux_spec. }
  assert (Hk : forall w, In w r -> keep_word w = true) by (intros w Hw; apply (extracted_tokens text w Hw)).
  assert (Hch : forall w c, In w r -> In c w -> is_word c = true /\ lower_unit c = c /\ is_ws c = false).
  { intros w c Hw Hc. apply (token_chars text w c); [apply (extracted_tokens text w Hw) | exact Hc]. }
  split; [exact Hnd|]. split.
  { intros w Hw. specialize (Hk w Hw). unfold keep_word in Hk.
    apply andb_true_iff in Hk as [H1 H2]. apply Nat.ltb_lt in H1. split; [exact H1|].
    intros Hs. apply mem_In in Hs. rewrite Hs in H2. discriminate. }
  split; [vm_compute; reflexivity|].
  assert (Hj : forall c, In c (join_sp r) -> c = 32 \/ (is_word c = true /\ lower_unit c = c /\ is_ws c = false)).
  { intros c Hc. destruct (In_join_sp c r Hc) as [E|[w [Hw Hcw]]]; [left; exact E | right; exact (Hch w c Hw Hcw)]. }
  unfold extractSearchTerms at 1.
  replace (toLowerCase (join_sp r)) with (join_sp r).
  2:{ unfold toLowerCase. symmetry. rewrite <- (map_id (join_sp r)) at 2. apply map_ext_in.
      intros c Hc. destruct (Hj c Hc) as [->|[_ [E _]]]; [reflexivity | exact E]. }
  replace (replace_non_word (join_sp r)) with (join_sp r).
  2:{ unfold replace_non_word. symmetry. rewrite <- (map_id (join_sp r)) at 2. apply map_ext_in.
      intros c Hc. destruct (Hj c Hc) as [->|[E _]]; [reflexivity | rewrite E; reflexivity]. }
  destruct r as [|w0 r0] eqn:Er.
  - vm_compute. reflexivity.
  - rewrite <- Er in *. rewrite split_ws_join.
    + rewrite filter_all by exact Hk. unfold uniq. apply uniq_aux_id; [exact Hnd | intros ? ? []].
    + rewrite Er; discriminate.
    + intros t Ht. split.
      * intros E. specialize (Hk t Ht). rewrite E in Hk. discriminate.
      * intros c Hc. apply (Hch t c Ht Hc).
Qed.

End ExtractProofs.

(** ** Relevance scoring *)
Module SearchProofs.
Import Search.
Local Open Scope nat_scope.

Example search_example :
  searchKnowledgeArticles
    [mkKB (u "A") (Some (u "Password Reset Steps")) None None;
     mkKB (u "B") (Some (u "Unrelated Billing Issue")) None None]
    [u "password"; u "reset"] 10
  = [mkKB (u "A") (Some (u "Password Reset Steps")) None None].
Proof. vm_compute. reflexivity. Qed.

Section Sorting.
Context {A : Type}.

Definition desc (a b : A * nat) : Prop := snd b <= snd a.

Lemma insert_In (x z : A * nat) l : In z (insert_by_score x l) -> z = x \/ In z l.
Proof.
  induction l as [|y l IH]; simpl; [intros [<-|[]]; left; reflexivity|].
  destruct (snd y <? snd x); simpl.
  - intros [<-|H]; [left; reflexivity | right; exact H].
  - intros [<-|H]; [right; left; reflexivity|]. destruct (IH H) as [E|E]; [left|right; right]; assumption.
Qed.

Lemma insert_sorted x l : StronglySorted desc l -> StronglySorted desc (insert_by_score x l).
Proof.
  induction l as [|y l IH]; intros Hs; simpl.
  - repeat constructor.
  - inversion Hs as [|? ? Hs' Hf]; subst.
    destruct (snd y <? snd x) eqn:E.
    + apply Nat.ltb_lt in E. constructor; [exact Hs|].
      constructor; [unfold desc; lia|].
      eapply Forall_impl; [|exact Hf]. intros z Hz; unfold desc in *; lia.
    + apply Nat.ltb_ge in E. constructor; [apply IH; exact Hs'|].
      apply Forall_forall. intros z Hz. destruct (insert_In x z l Hz) as [->|Hz'].
      * unfold desc; lia.
      * rewrite Forall_forall in Hf. apply Hf; exact Hz'.
Qed.

Lemma insert_bucket x l k : StronglySorted desc l ->
  filter (fun p => snd p =? k) (insert_by_score x l) =
  filter (fun p => snd p =? k) l ++ (if snd x =? k then [x] else []).
Proof.
  induction l as [|y l IH]; intros Hs; simpl; [destruct (snd x =? k); reflexivity|].
  inversion Hs as [|? ? Hs' Hf]; subst.
  destruct (snd y <? snd x) eqn:E; simpl.
  - apply Nat.ltb_lt in E.
    destruct (snd x =? k) eqn:Ex.
    + apply Nat.eqb_eq in Ex.
      assert (H0 : filter (fun p => snd p =? k) (y :: l) = []).
      { simpl. replace (snd y =? k) with false by (symmetry; apply Nat.eqb_neq; lia).
        rewrite Forall_forall in Hf.
        erewrite filter_ext_in; [apply filter_false|].
        intros a Ha. specialize (Hf a Ha). unfold desc in Hf. apply Nat.eqb_neq. lia. }
      simpl in H0. rewrite H0. reflexivity.
    + rewrite app_nil_r. reflexivity.
  - rewrite IH by exact Hs'. destruct (snd y =? k); reflexivity.
Qed.

Lemma sort_spec (l acc : list (A * nat)) : StronglySorted desc acc ->
  StronglySorted desc (fold_left (fun acc x => insert_by_score x acc) l acc) /\
  (forall k, filter (fun p => snd p =? k) (fold_left (fun acc x => insert_by_score x acc) l acc) =
             filter (fun p => snd p =? k) acc ++ filter (fun p => snd p =? k) l) /\
  (forall z, In z (fold_left (fun acc x => insert_by_score x acc) l acc) -> In z acc \/ In z l).
Proof.
  revert acc; induction l as [|x l IH]; intros acc Hs; simpl.
  - split; [exact Hs|]. split; [intros k; rewrite app_nil_r; reflexivity | intros z H; left; exact H].
  - destruct (IH (insert_by_score x acc) (insert_sorted x acc Hs)) as [H1 [H2 H3]].
    split; [exact H1|]. split.
    + intros k. rewrite H2, insert_bucket by exact Hs. rewrite <- app_assoc.
      destruct (snd x =? k); reflexivity.
    + intros z Hz. destruct (H3 z Hz) as [Hz'|Hz'].
      * destruct (insert_In x z acc Hz') as [->|H]; [right; left; reflexivity | left; exact H].
      * right; right; exact Hz'.
Qed.

Definition pos_le (k : nat) (p : A * nat) : bool := (1 <=? snd p) && (snd p <=? k).

Lemma pos_le_reflect k p b : pos_le k p = b -> (b = true <-> 1 <= snd p <= k).
Proof.
  unfold pos_le. intros <-. rewrite andb_true_iff, !Nat.leb_le. tauto.
Qed.

Local Ltac reflect_iff H :=
  match type of H with
  | true = true <-> ?P => let H' := fresh H in assert (H' : P) by (apply H; reflexivity); clear H
  | false = true <-> ?P => let H' := fresh H in assert (H' : ~ P) by (let X := fresh in intro X; apply H in X; discriminate); clear H
  end.

Lemma split_top (S : list (A * nat)) k : StronglySorted desc S ->
  filter (pos_le (Datatypes.S k)) S = filter (fun p => snd p =? Datatypes.S k) S ++ filter (pos_le k) S.
Proof.
  induction S as [|y S IH]; intros Hs; [reflexivity|].
  inversion Hs as [|? ? Hs' Hf]; subst. rewrite Forall_forall in Hf.
  cbn [filter].
  destruct (pos_le (Datatypes.S k) y) eqn:P1, (snd y =? Datatypes.S k) eqn:P2, (pos_le k y) eqn:P3;
    apply pos_le_reflect in P1; apply pos_le_reflect in P3; reflect_iff P1; reflect_iff P3;
    first [apply Nat.eqb_eq in P2 | apply Nat.eqb_neq in P2]; try lia.
  all: first
    [ rewrite IH by exact Hs'; reflexivity
    | apply IH; exact Hs'
    | assert (Hy : snd y <= k) by lia;
      assert (E1 : filter (fun p => snd p =? Datatypes.S k) S = []);
      [ erewrite filter_ext_in; [apply filter_false|];
        intros a Ha; specialize (Hf a Ha); unfold desc in Hf; apply Nat.eqb_neq; lia
      | assert (E2 : filter (pos_le (Datatypes.S k)) S = filter (pos_le k) S);
        [ apply filter_ext_in; intros a Ha; specialize (Hf a Ha); unfold desc, pos_le in *;
          replace (snd a <=? Datatypes.S k) with true by (symmetry; apply Nat.leb_le; lia);
          replace (snd a <=? k) with true by (symmetry; apply Nat.leb_le; lia); reflexivity
        | rewrite E1, E2; reflexivity ] ] ].
Qed.

Lemma by_score_sorted (l : list (A * nat)) k :
  by_score_desc snd l k = filter (pos_le k) (sort_by_score l).
Proof.
  destruct (sort_spec l [] (SSorted_nil _)) as [Hs [Hb _]].
  induction k as [|k IH]; simpl.
  - symmetry. erewrite filter_ext; [apply filter_false|]. intros a; unfold pos_le.
    destruct (1 <=? snd a) eqn:E1, (snd a <=? 0) eqn:E2; try reflexivity.
    apply Nat.leb_le in E1, E2. lia.
  - unfold sort_by_score in *. rewrite split_top by exact Hs. rewrite Hb, IH. reflexivity.
Qed.

Lemma rank_by_score (l : list (A * nat)) K limit :
  (forall p, In p l -> snd p <= K) ->
  rank l limit = map fst (firstn limit (by_score_desc snd l K)).
Proof.
  intros HK. unfold rank. rewrite by_score_sorted. do 2 f_equal.
  destruct (sort_spec l [] (SSorted_nil _)) as [_ [_ Hin]].
  apply filter_ext_in. intros a Ha. unfold sort_by_score in Ha.
  destruct (Hin a Ha) as [[]|Ha']. specialize (HK a Ha'). unfold pos_le.
  destruct (Nat.ltb_spec 0 (snd a)), (Nat.leb_spec 1 (snd a)); simpl; try lia;
  symmetry; apply Nat.leb_le; lia.
Qed.

End Sorting.

Lemma count_matches_length hay terms :
  count_matches hay terms = List.length (filter (fun t => includes hay t) terms).
Proof.
  unfold count_matches.
  assert (G : forall n, fold_left (fun score term => if includes hay term then S score else score) terms n
                     = n + List.length (filter (fun t => includes hay t) terms)).
  { induction terms as [|t ts IH]; intros n; simpl; [lia|].
    destruct (includes hay t); simpl; rewrite IH; lia. }
  rewrite G; reflexivity.
Qed.

Lemma by_score_map {R} (f : R -> nat) (corpus : list R) k :
  by_score_desc snd (map (fun r => (r, f r)) corpus) k = map (fun r => (r, f r)) (by_score_desc f corpus k).
Proof.
  induction k as [|k IH]; simpl; [reflexivity|].
  rewrite IH, filter_map_swap, map_app. reflexivity.
Qed.

Lemma rank_search {R} (hay : R -> jstr) terms (corpus : list R) limit :
  NoDup terms ->
  rank (map (fun r => (r, count_matches (hay r) terms)) corpus) limit = search_spec hay terms corpus limit.
Proof.
  intros Hnd.
  assert (Hsc : forall r, count_matches (hay r) terms = distinct_score hay terms r).
  { intros r. unfold distinct_score. rewrite count_matches_length, nodup_fixed_point; [reflexivity|].
    apply NoDup_filter; exact Hnd. }
  rewrite (map_ext _ (fun r => (r, distinct_score hay terms r))) by (intros r; rewrite Hsc; reflexivity).
  rewrite (rank_by_score _ (List.length terms)).
  - rewrite by_score_map, firstn_map, map_map. simpl. rewrite map_id. reflexivity.
  - intros p Hp. apply in_map_iff in Hp as [r [<- _]]. simpl.
    rewrite <- Hsc, count_matches_length. apply filter_length_le.
Qed.

(** Claim C3: for a set of terms (no duplicates), both searches return the
    first [limit] records of: the records with at least one matched term,
    grouped by the number of distinct matched terms from the highest down,
    in corpus order within a group; so at most [limit] records. *)
Theorem search_exact terms articles scripts limit :
  NoDup terms ->
  searchKnowledgeArticles articles terms limit = search_spec kb_haystack terms articles limit /\
  List.length (searchKnowledgeArticles articles terms limit) <= limit /\
  searchScripts scripts terms limit = search_spec script_haystack terms scripts limit /\
  List.length (searchScripts scripts terms limit) <= limit.
Proof.
  intros Hnd. unfold searchKnowledgeArticles, searchScripts.
  rewrite !rank_search by exact Hnd.
  split; [reflexivity|]. split; [apply firstn_le_length|].
  split; [reflexivity | apply firstn_le_length].
Qed.

Lemma search_exact_witness :
  NoDup [u "password"; u "reset"] /\
  searchKnowledgeArticles [mkKB (u "A") (Some (u "Password Reset Steps")) None None]
    [u "password"; u "reset"] 10
  = search_spec kb_haystack [u "password"; u "reset"] [mkKB (u "A") (Some (u "Password Reset Steps")) None None] 10.
Proof.
  assert (H : NoDup [u "password"; u "reset"]).
  { constructor; [simpl; intros [E|[]]; discriminate E | constructor; [intros [] | constructor]]. }
  split; [exact H|].
  exact (proj1 (search_exact [u "password"; u "reset"] _ [] 10 H)).
Defined.

End SearchProofs.

(** ** The tolerant JSON parser *)
Module JsonSafeProofs.
Import Json JsonSafe.
Local Open Scope N_scope.

Lemma lex_from_app ctrl s a b :
  lex_from ctrl s (a ++ b) = match lex_from ctrl s a with Some s' => lex_from ctrl s' b | None => None end.
Proof.
  revert s; induction a as [|c a IH]; intros s; simpl; [reflexivity|].
  destruct (lex_step ctrl s c); [apply IH | reflexivity].
Qed.

(** Whatever the strict lexer accepts, a lexer tolerating raw control code
    units accepts the same way. *)
Lemma lex_step_strict ctrl s c s' :
  lex_step strict_ctrl s c = Some s' -> lex_step ctrl s c = Some s'.
Proof.
  destruct s as [toks st]; destruct st; simpl; try tauto.
  destruct (c =? 34); [tauto|]. destruct (c =? 92); [tauto|].
  destruct (c <=? 31); [discriminate | tauto].
Qed.

Lemma lex_from_strict ctrl s t r :
  lex_from strict_ctrl s t = Some r -> lex_from ctrl s t = Some r.
Proof.
  revert s; induction t as [|c t IH]; intros s; simpl; [tauto|].
  destruct (lex_step strict_ctrl s c) as [s'|] eqn:E; [|discriminate].
  rewrite (lex_step_strict ctrl s c s' E). apply IH.
Qed.

(** What the code's replacement text of a control code unit decodes to. *)
Definition replacement_value (c : N) : jstr :=
  if c =? 10 then [10] else if c =? 13 then [13] else if c =? 9 then [9] else [32].

Definition replacement_ctrl (c : N) : option jstr := Some (replacement_value c).

Lemma replacement_chunk c toks acc :
  lex_from strict_ctrl (toks, LStr acc) (control_replacement c)
  = Some (toks, LStr (rev (replacement_value c) ++ acc)).
Proof.
  unfold control_replacement, replacement_value.
  destruct (c =? 10); [reflexivity|]. destruct (c =? 13); [reflexivity|].
  destruct (c =? 9); reflexivity.
Qed.

Lemma replacement_chunk_hex c toks acc n v :
  lex_from strict_ctrl (toks, LHex acc n v) (control_replacement c ++ []) = None.
Proof.
  unfold control_replacement.
  destruct (c =? 10); [reflexivity|]. destruct (c =? 13); [reflexivity|].
  destruct (c =? 9); reflexivity.
Qed.

(** The rescan flags that go with a lexer state. *)
Definition in_string (st : lstate) : bool := match st with LOut _ => false | _ => true end.
Definition after_escape (st : lstate) : bool := match st with LEsc _ => true | _ => false end.

Local Ltac step_case :=
  simpl; repeat match goal with
  | E : ?x = _ |- context [?x] => rewrite E
  end.

(** Lexing the rescanned text strictly is lexing the original text with raw
    control code units read as what their replacement decodes to. *)
Lemma lex_rescan raw toks st :
  lex_from strict_ctrl (toks, st) (rescan control_replacement (in_string st) (after_escape st) raw)
  = lex_from replacement_ctrl (toks, st) raw.
Proof.
  revert toks st; induction raw as [|c raw IH]; intros toks st; [reflexivity|].
  destruct st as [bare|acc|acc|acc n v]; cbn [in_string after_escape rescan].
  - (* outside strings *)
    simpl negb. cbn iota.
    destruct (c =? 92) eqn:E92.
    + apply N.eqb_eq in E92; subst c. reflexivity.
    + destruct (c =? 34) eqn:E34.
      * apply N.eqb_eq in E34; subst c. simpl. apply (IH _ (LStr [])).
      * cbn [lex_from]. unfold lex_step at 1 2.
        destruct (json_ws c).
        { apply (IH _ (LOut [])). }
        rewrite E34. destruct (punct c).
        { apply (IH _ (LOut [])). }
        destruct (bare_char c); [apply (IH _ (LOut _)) | reflexivity].
  - (* inside a string *)
    destruct (c =? 92) eqn:E92.
    + apply N.eqb_eq in E92; subst c. simpl. apply (IH _ (LEsc acc)).
    + simpl negb. cbn iota. destruct (c =? 34) eqn:E34.
      * simpl. rewrite E34. apply (IH _ (LOut [])).
      * destruct (c <=? 31) eqn:E31.
        -- rewrite lex_from_app, replacement_chunk. cbn [lex_from lex_step].
           rewrite E34, E92, E31. apply (IH _ (LStr _)).
        -- simpl. rewrite E34, E92, E31. apply (IH _ (LStr _)).
  - (* after a backslash *)
    cbn [lex_from lex_step].
    destruct (c =? 117); [apply (IH _ (LHex _ _ _))|].
    destruct (simple_escape c); [apply (IH _ (LStr _)) | reflexivity].
  - (* in a \u escape *)
    destruct (c =? 92) eqn:E92.
    + apply N.eqb_eq in E92; subst c. reflexivity.
    + simpl negb. cbn iota. destruct (c =? 34) eqn:E34.
      * apply N.eqb_eq in E34; subst c. reflexivity.
      * destruct (c <=? 31) eqn:E31.
        -- rewrite lex_from_app. rewrite <- (app_nil_r (control_replacement c)).
           rewrite replacement_chunk_hex. cbn [lex_from lex_step].
           replace (hex_val c) with (@None N); [reflexivity|].
           apply N.leb_le in E31. unfold hex_val.
           replace ((48 <=? c) && (c <=? 57)) with false by (symmetry; apply andb_false_iff; left; apply N.leb_gt; lia).
           replace ((65 <=? c) && (c <=? 70)) with false by (symmetry; apply andb_false_iff; left; apply N.leb_gt; lia).
           replace ((97 <=? c) && (c <=? 102)) with false by (symmetry; apply andb_false_iff; left; apply N.leb_gt; lia).
           reflexivity.
        -- cbn [lex_from lex_step]. destruct (hex_val c); [|reflexivity].
           destruct (n =? 3)%nat; [apply (IH _ (LStr _)) | apply (IH _ (LHex _ _ _))].
Qed.

(** [parseJsonSafe] is [JSON.parse] of the rescanned text, whichever branch
    the code takes. *)
Lemma parseJsonSafe_rescan raw :
  parseJsonSafe raw = JSON_parse (rescan control_replacement false false raw).
Proof.
  unfold parseJsonSafe, JSON_parse, lex.
  pose proof (lex_rescan raw [] (LOut [])) as L. cbn [in_string after_escape] in L. rewrite L.
  destruct (lex_from strict_ctrl ([], LOut []) raw) as [s|] eqn:E.
  - rewrite (lex_from_strict replacement_ctrl _ _ _ E).
    destruct (lex_finish s); [|reflexivity]. destruct (parse_tokens l); reflexivity.
  - reflexivity.
Qed.

Lemma rescan_agree g1 g2 ins esc raw :
  (forall c, In c (controls_in_strings ins esc raw) -> g1 c = g2 c) ->
  rescan g1 ins esc raw = rescan g2 ins esc raw.
Proof.
  revert ins esc; induction raw as [|c raw IH]; intros ins esc H; simpl in *; [reflexivity|].
  destruct esc; [f_equal; apply IH; exact H|].
  destruct (c =? 92); [f_equal; apply IH; exact H|].
  destruct (negb ins).
  - destruct (c =? 34); f_equal; apply IH; exact H.
  - destruct (c =? 34); [f_equal; apply IH; exact H|].
    destruct (c <=? 31).
    + rewrite (H c (or_introl eq_refl)). f_equal. apply IH. intros x Hx; apply H; right; exact Hx.
    + f_equal; apply IH; exact H.
Qed.

Lemma rescan_blank_escape ins esc raw :
  rescan json_escape ins esc (rescan blank_other ins esc raw) = rescan control_replacement ins esc raw.
Proof.
  revert ins esc; induction raw as [|c raw IH]; intros ins esc; [reflexivity|].
  cbn [rescan].
  destruct esc; [simpl; f_equal; apply IH|].
  destruct (c =? 92) eqn:E92; [simpl; rewrite E92; f_equal; apply IH|].
  destruct (negb ins) eqn:Ei.
  - destruct (c =? 34) eqn:E34; simpl; rewrite E92, Ei, E34; f_equal; apply IH.
  - destruct (c =? 34) eqn:E34; [simpl; rewrite E92, Ei, E34; f_equal; apply IH|].
    destruct (c <=? 31) eqn:E31.
    + destruct ins; [|discriminate Ei].
      destruct ((c =? 10) || (c =? 13) || (c =? 9)) eqn:Ek.
      * replace (blank_other c) with [c] by (unfold blank_other; rewrite Ek; reflexivity).
        replace (control_replacement c) with (json_escape c).
        2:{ unfold json_escape, control_replacement.
            destruct (c =? 10); [reflexivity|]. destruct (c =? 13); [reflexivity|].
            destruct (c =? 9); [reflexivity | discriminate Ek]. }
        cbn [app rescan]. rewrite E92, E34, E31. simpl negb. cbn iota. f_equal. apply IH.
      * replace (blank_other c) with [32] by (unfold blank_other; rewrite Ek; reflexivity).
        replace (control_replacement c) with [32].
        2:{ unfold control_replacement. apply orb_false_iff in Ek as [Ek E9]. apply orb_false_iff in Ek as [E10 E13].
            rewrite E10, E13, E9. reflexivity. }
        cbn [app rescan]. simpl. f_equal. apply IH.
    + simpl. rewrite E92, Ei, E34, E31. f_equal. apply IH.
Qed.

Definition raw_ctrl_example : jstr := [34; 65; 1; 66; 34].

(** Claim C4 as stated fails: a raw control code unit other than newline,
    carriage return and tab becomes a space, while the correctly escaped
    original ([\u0001]) parses to that control character. *)
Lemma parseJsonSafe_not_escape_equivalent :
  ~ (forall raw v, JSON_parse (escape_controls raw) = Some v -> parseJsonSafe raw = Some v).
Proof.
  intros H.
  specialize (H raw_ctrl_example (JStr [65; 1; 66])).
  assert (E : JSON_parse (escape_controls raw_ctrl_example) = Some (JStr [65; 1; 66])) by (vm_compute; reflexivity).
  specialize (H E). vm_compute in H. discriminate H.
Qed.

(** Claim C4, amended: a strictly valid text parses as [JSON.parse] parses
    it; a text whose raw control code units inside strings are only
    newline, carriage return or tab parses to the value of its correctly
    escaped original; in general, other raw control code units read as a
    space. *)
Theorem parseJsonSafe_tolerant raw v :
  (JSON_parse raw = Some v -> parseJsonSafe raw = Some v) /\
  ((forall c, In c (controls_in_strings false false raw) -> c = 10 \/ c = 13 \/ c = 9) ->
   JSON_parse (escape_controls raw) = Some v -> parseJsonSafe raw = Some v) /\
  (JSON_parse (escape_controls (blank_other_controls raw)) = Some v -> parseJsonSafe raw = Some v).
Proof.
  split; [|split].
  - unfold parseJsonSafe. intros ->. reflexivity.
  - intros Hc Hp. rewrite parseJsonSafe_rescan. unfold escape_controls in Hp.
    rewrite <- Hp. f_equal. apply rescan_agree.
    intros c Hin. destruct (Hc c Hin) as [->|[->| ->]]; reflexivity.
  - unfold escape_controls, blank_other_controls. rewrite rescan_blank_escape.
    rewrite parseJsonSafe_rescan. tauto.
Qed.

Lemma parseJsonSafe_tolerant_witness :
  JSON_parse [34; 65; 10; 66; 34] = None /\
  JSON_parse (escape_controls [34; 65; 10; 66; 34]) = Some (JStr [65; 10; 66]) /\
  parseJsonSafe [34; 65; 10; 66; 34] = Some (JStr [65; 10; 66]).
Proof.
  split; [vm_compute; reflexivity|]. split; [vm_compute; reflexivity|].
  apply (proj1 (proj2 (parseJsonSafe_tolerant [34; 65; 10; 66; 34] (JStr [65; 10; 66])))).
  - simpl. intros c [<-|[]]. left; reflexivity.
  - vm_compute. reflexivity.
Defined.

End JsonSafeProofs.

Module AnalyzeProofs.
Import Json JsonSafe Search AnalyzeTicket.
Local Open Scope N_scope.

(** A number in [[0,1]]. *)
Definition in_unit (x : jsnum) : Prop :=
  match x with Fin q => (0 <= q <= 1)%Q | _ => False end.

Lemma clamp_unit (x : jsnum) :
  in_unit (Math_min (Fin 1) (Math_max (Fin 0) x)) <-> x <> NaN.
Proof.
  destruct x as [|q| |]; cbn.
  { split; [intros [] | intros H; exfalso; apply H; reflexivity]. }
  all: split; [discriminate | intros _].
  2, 3: split; apply Qle_bool_iff; reflexivity.
  destruct (Qle_bool q 0) eqn:E1; cbn.
  - split; apply Qle_bool_iff; reflexivity.
  - apply Bool.not_true_iff_false in E1. rewrite Qle_bool_iff in E1.
    destruct (Qle_bool 1 q) eqn:E2; cbn.
    + split; apply Qle_bool_iff; reflexivity.
    + apply Bool.not_true_iff_false in E2. rewrite Qle_bool_iff in E2.
      split; apply Qlt_le_weak, Qnot_le_lt; assumption.
Qed.

(** Whether the outer [try] throws, and with which message, and every field
    of its result but the Stage 2 ones, do not depend on the Stage 2 replies. *)
Lemma analysis_shape env sources r1 :
  (exists m, forall rc rq, analysis env sources r1 rc rq = inl m) \/
  (exists sol c d rr, forall rc rq, analysis env sources r1 rc rq =
     inr (mkResult sol c d (st_compliance (stage2 sol rc rq)) sources rr
            (st_qa_score (stage2 sol rc rq)) (st_red_flags (stage2 sol rc rq))
            (st_coaching_tip (stage2 sol rc rq)) None)).
Proof.
  unfold analysis. destruct r1 as [m|m|t]; [left; exists m; reflexivity .. |].
  destruct (parseJsonSafe (json_candidate (reply_text t))) as [parsed|];
    [|left; eexists; intros; reflexivity].
  destruct parsed; try (left; eexists; intros; reflexivity);
    (destruct (qa_prompt env); [left; eexists; intros; reflexivity|]);
    (destruct (resource_of _ _); [|left; eexists; intros; reflexivity]);
    (destruct (Number _); [|left; eexists; intros; reflexivity]);
    (destruct (draft_of _ _); [|left; eexists; intros; reflexivity]);
    right; do 4 eexists; intros; reflexivity.
Qed.

Lemma analysis_no_error env sources r1 rc rq res :
  analysis env sources r1 rc rq = inr res -> error res = None.
Proof.
  destruct (analysis_shape env sources r1) as [[m H]|[sol [c [d [rr H]]]]]; rewrite H;
    [discriminate | intros E; injection E as <-; reflexivity].
Qed.

Lemma analysis_success env sources t rc rq parsed rr n d :
  parseJsonSafe (json_candidate (reply_text t)) = Some parsed -> parsed <> JNull ->
  (exists p, qa_prompt env = inr p) ->
  resource_of (number_to_string env) (get parsed (u "recommended_resource")) = Some rr ->
  Number (get parsed (u "confidence_score")) = Some n ->
  draft_of (number_to_string env) (get parsed (u "new_knowledge_draft")) = Some d ->
  let sol := match get parsed (u "solution") with
             | None | Some JNull => JStr (u "No solution generated.") | Some v => v end in
  analysis env sources (Text t) rc rq =
    inr (mkResult sol (Math_min (Fin 1) (Math_max (Fin 0) n)) d (st_compliance (stage2 sol rc rq))
           sources rr (st_qa_score (stage2 sol rc rq)) (st_red_flags (stage2 sol rc rq))
           (st_coaching_tip (stage2 sol rc rq)) None).
Proof.
  intros Hp Hn [p Hq] Hr Hc Hd sol. subst sol. unfold analysis. rewrite Hp.
  destruct parsed; try congruence; rewrite Hq, Hr, Hc, Hd; reflexivity.
Qed.

Lemma analysis_conversion env sources t rc rq parsed :
  parseJsonSafe (json_candidate (reply_text t)) = Some parsed -> parsed <> JNull ->
  (exists p, qa_prompt env = inr p) ->
  resource_of (number_to_string env) (get parsed (u "recommended_resource")) = None \/
  Number (get parsed (u "confidence_score")) = None \/
  draft_of (number_to_string env) (get parsed (u "new_knowledge_draft")) = None ->
  analysis env sources (Text t) rc rq = inl (conversion_error_message env).
Proof.
  intros Hp Hn [p Hq] H. unfold analysis. rewrite Hp.
  destruct parsed; try congruence; rewrite Hq;
    (destruct (resource_of _ _) eqn:E1; [|reflexivity]);
    (destruct (Number _) eqn:E2; [|reflexivity]);
    (destruct (draft_of _ _) eqn:E3; [|reflexivity]);
    destruct H as [H|[H|H]]; congruence.
Qed.

(** The configuration check of [analyzeTicket] passes, and the sources it
    computes before the [try]. *)
Definition key_ok (env : Env) : bool := truthy (option_map JStr (api_key env)).

Definition sources_of (env : Env) (ticketId transcript : jstr) (learnedArticles : list LearnedArticle)
    : list KnowledgeSource :=
  let ticket := getTicketById env ticketId in
  let issueText := or_str (Some transcript)
                     (or_str (opt_bind ticket Description)
                        (or_str (opt_bind ticket Subject) (u "No description provided."))) in
  let relevantArticles := searchKnowledgeArticles (knowledge env) (ExcelParser.extractSearchTerms issueText) 6%nat in
  let seedArticles := match relevantArticles with [] => firstn 5 (knowledge env) | _ => relevantArticles end in
  map learned_source learnedArticles ++ map seed_source seedArticles.

Lemma analyzeTicket_unfold env tid tr learned r1 rc rq :
  analyzeTicket env tid tr learned r1 rc rq =
  if negb (key_ok env) then missing_key_result else
  match analysis env (sources_of env tid tr learned) r1 rc rq with
  | inl message => failure_result message
  | inr res => res
  end.
Proof. reflexivity. Qed.

(** The shape of a fatal result: a diagnostic solution, confidence 0,
    everything derived empty, null or UNKNOWN, and an error message. *)
Definition fatal_shape (res : AnalyzeTicketResult) : Prop :=
  confidence_score res = Fin 0 /\ new_knowledge_draft res = None /\
  compliance_status res = UNKNOWN /\ sources_used res = [] /\
  recommended_resource res = None /\ qa_score res = None /\ red_flags res = [] /\
  coaching_tip res = None /\
  exists m, error res = Some m /\
    (solution res = JStr (u "Error: Gemini API key not configured.") \/
     solution res = JStr (u "Analysis failed: " ++ m)).

(** The fatal failures: no API key, a failed Stage 1 call (the request or
    [text()]), a Stage 1 reply that even the tolerant parse rejects. *)
Definition fatal_cause (env : Env) (r1 : reply) : Prop :=
  key_ok env = false \/
  (exists m, r1 = Rejected m \/ r1 = TextThrows m) \/
  (exists t, r1 = Text t /\ parseJsonSafe (json_candidate (reply_text t)) = None).

(** The values of the Stage 1 fields of a result. *)
Definition stage1_fields (res : AnalyzeTicketResult)
    : jvalue * jsnum * option jstr * list KnowledgeSource * option RecommendedResource * option jstr :=
  (solution res, confidence_score res, new_knowledge_draft res, sources_used res,
   recommended_resource res, error res).

(** A failure of a Stage 2 call: a request that fails, a [text()] that
    throws, or a QA reply whose braced part the tolerant parse rejects. *)
Definition stage2_failure (complianceRes qaRes : reply) : Prop :=
  (exists m, complianceRes = Rejected m \/ complianceRes = TextThrows m \/
             qaRes = Rejected m \/ qaRes = TextThrows m) \/
  (exists qt m, qaRes = Text qt /\ brace_match (reply_text qt) = Some m /\ parseJsonSafe m = None).

Definition env_example : Env :=
  mkEnv (Some (u "key")) (fun _ => None) [] (inr []) (fun _ => u "0") (u "Unexpected token") (u "null")
    (u "Cannot convert object to primitive value").

Definition no_confidence_reply : reply := Text (Some (uq "{'solution':'Restart the VPN client.'}")).

Definition no_confidence_parsed : jvalue :=
  JObj [(u "solution", JStr (u "Restart the VPN client."))].

Lemma stage2_failure_qa sol rc rq :
  stage2_failure rc rq ->
  st_qa_score (stage2 sol rc rq) = None /\ st_red_flags (stage2 sol rc rq) = [] /\
  st_coaching_tip (stage2 sol rc rq) = None.
Proof.
  intros H. unfold stage2. destruct (slice_ok sol); cbn [negb]; [| auto].
  destruct rc as [m1|m1|ct], rq as [m2|m2|qt]; cbn -[brace_match parseJsonSafe]; auto.
  destruct H as [[m [H|[H|[H|H]]]]|[qt' [m [H [Hb Hp]]]]]; try discriminate.
  injection H as <-. rewrite Hb, Hp. auto.
Qed.

Lemma stage2_unknown sol rc rq :
  (exists m, rc = Rejected m \/ rc = TextThrows m \/ rq = Rejected m) \/ slice_ok sol = false ->
  st_compliance (stage2 sol rc rq) = UNKNOWN.
Proof.
  intros H. unfold stage2. destruct (slice_ok sol); cbn [negb]; [| reflexivity].
  destruct H as [[m [->|[->| ->]]]|H];
    [destruct rq; reflexivity | destruct rq; reflexivity | destruct rc; reflexivity | discriminate].
Qed.

Lemma stage2_verdict sol ct rq :
  (forall m, rq <> Rejected m) -> slice_ok sol = true ->
  st_compliance (stage2 sol (Text ct) rq) = compliance_of ct.
Proof.
  intros H S. unfold stage2. rewrite S. cbn [negb].
  destruct rq as [m|m|qt]; [exfalso; eapply H; reflexivity | reflexivity |].
  cbn -[brace_match parseJsonSafe compliance_of].
  destruct (brace_match (reply_text qt)); [| reflexivity].
  destruct (parseJsonSafe j) as [[]|]; reflexivity.
Qed.

(** C1 (the code): on a successful result [confidence_score] is
    [Math.min(1, Math.max(0, Number(parsed.confidence_score)))]: the
    [?? 0.5] never applies, as [Number] returns a number or throws. The
    result lies in [[0,1]] exactly when [Number(...)] is not NaN, and a
    missing [confidence_score] gives NaN. When [Number] throws (an object
    with an own [toString]) the outer [catch] returns the error result,
    with confidence 0. *)
Theorem confidence_score_success env tid tr learned t rc rq parsed :
  key_ok env = true -> parseJsonSafe (json_candidate (reply_text t)) = Some parsed ->
  parsed <> JNull -> (exists p, qa_prompt env = inr p) ->
  let res := analyzeTicket env tid tr learned (Text t) rc rq in
  (error res = None ->
   exists n, Number (get parsed (u "confidence_score")) = Some n /\
     confidence_score res = Math_min (Fin 1) (Math_max (Fin 0) n) /\
     (in_unit (confidence_score res) <-> n <> NaN)) /\
  (Number (get parsed (u "confidence_score")) = None ->
   error res = Some (conversion_error_message env) /\ confidence_score res = Fin 0) /\
  (get parsed (u "confidence_score") = None -> error res = None -> confidence_score res = NaN).
Proof.
  intros K Hp Hn Hq res. subst res. rewrite analyzeTicket_unfold, K. cbn [negb].
  destruct (resource_of (number_to_string env) (get parsed (u "recommended_resource"))) as [rr|] eqn:Hr;
  [destruct (Number (get parsed (u "confidence_score"))) as [n|] eqn:Hc;
   [destruct (draft_of (number_to_string env) (get parsed (u "new_knowledge_draft"))) as [d|] eqn:Hd|]|].
  - rewrite (analysis_success env (sources_of env tid tr learned) t rc rq parsed rr n d Hp Hn Hq Hr Hc Hd).
    cbn [error confidence_score]. split; [|split].
    + intros _. exists n. split; [reflexivity | split; [reflexivity | apply clamp_unit]].
    + discriminate.
    + intros G _. unfold Number in Hc. rewrite G in Hc. injection Hc as <-. reflexivity.
  - rewrite (analysis_conversion env (sources_of env tid tr learned) t rc rq parsed Hp Hn Hq
               (or_intror (or_intror Hd))).
    cbn. split; [discriminate | split; [intros _; split; reflexivity | intros _; discriminate]].
  - rewrite (analysis_conversion env (sources_of env tid tr learned) t rc rq parsed Hp Hn Hq
               (or_intror (or_introl Hc))).
    cbn. split; [discriminate | split; [intros _; split; reflexivity | intros _; discriminate]].
  - rewrite (analysis_conversion env (sources_of env tid tr learned) t rc rq parsed Hp Hn Hq (or_introl Hr)).
    cbn. split; [discriminate | split; [intros _; split; reflexivity | intros _; discriminate]].
Qed.

Lemma confidence_score_success_witness :
  let res := analyzeTicket env_example [] (u "vpn") [] no_confidence_reply (Text None) (Text None) in
  (error res = None ->
   exists n, Number (get no_confidence_parsed (u "confidence_score")) = Some n /\
     confidence_score res = Math_min (Fin 1) (Math_max (Fin 0) n) /\
     (in_unit (confidence_score res) <-> n <> NaN)) /\
  (Number (get no_confidence_parsed (u "confidence_score")) = None ->
   error res = Some (conversion_error_message env_example) /\ confidence_score res = Fin 0) /\
  (get no_confidence_parsed (u "confidence_score") = None -> error res = None -> confidence_score res = NaN).
Proof.
  apply (confidence_score_success env_example [] (u "vpn") [] _ (Text None) (Text None) no_confidence_parsed).
  - reflexivity.
  - vm_compute. reflexivity.
  - discriminate.
  - exists []. reflexivity.
Defined.

(** C1 (the claim refuted): a Stage 1 reply without [confidence_score]
    gives a successful result whose [confidence_score] is NaN, not in
    [[0,1]] (and not the default 0.5). *)
Lemma confidence_not_in_unit :
  ~ (forall env tid tr learned r1 rc rq,
       error (analyzeTicket env tid tr learned r1 rc rq) = None ->
       in_unit (confidence_score (analyzeTicket env tid tr learned r1 rc rq))).
Proof.
  intros H.
  specialize (H env_example [] (u "vpn") [] no_confidence_reply (Text (Some (u "SAFE"))) (Text None)).
  vm_compute in H. exact (H eq_refl).
Qed.

(** C7: every result that carries an error has the fatal shape (a
    diagnostic solution, confidence 0, empty sources and red flags, null
    draft, resource, QA score and coaching tip, compliance UNKNOWN, an error
    message); and each fatal failure (missing API key, failed Stage 1
    request or [text()], Stage 1 reply rejected by the tolerant parse) gives
    a result that carries an error. *)
Theorem analyzeTicket_fatal env tid tr learned r1 rc rq :
  (error (analyzeTicket env tid tr learned r1 rc rq) <> None ->
   fatal_shape (analyzeTicket env tid tr learned r1 rc rq)) /\
  (fatal_cause env r1 -> error (analyzeTicket env tid tr learned r1 rc rq) <> None).
Proof.
  rewrite analyzeTicket_unfold. destruct (key_ok env) eqn:K; cbn [negb].
  - destruct (analysis env (sources_of env tid tr learned) r1 rc rq) as [m|res] eqn:A.
    + split.
      * intros _. unfold fatal_shape; cbn. repeat split.
        exists m. split; [reflexivity | right; reflexivity].
      * intros _. cbn. discriminate.
    + pose proof (analysis_no_error _ _ _ _ _ _ A) as E. rewrite E. split; [congruence |].
      intros [Hk|[[m [-> | ->]]|[t [-> Hp]]]]; [congruence | discriminate | discriminate |].
      unfold analysis in A. rewrite Hp in A. discriminate.
  - split.
    + intros _. unfold fatal_shape; cbn. repeat split.
      eexists. split; [reflexivity | left; reflexivity].
    + intros _. cbn. discriminate.
Qed.

Lemma analyzeTicket_fatal_witness :
  fatal_cause env_example (Rejected (u "fetch failed")) /\
  error (analyzeTicket env_example [] (u "vpn") [] (Rejected (u "fetch failed")) (Text None) (Text None)) <> None.
Proof.
  assert (C : fatal_cause env_example (Rejected (u "fetch failed")))
    by (right; left; exists (u "fetch failed"); left; reflexivity).
  split; [exact C |].
  exact (proj2 (analyzeTicket_fatal env_example [] (u "vpn") [] (Rejected (u "fetch failed")) (Text None) (Text None)) C).
Defined.

Definition unparsable_qa : reply := Text (Some (u "{oops}")).

(** C8 (the claim refuted): when the compliance call answers and only the
    QA reply fails to parse, the result keeps the compliance verdict (SAFE
    here) instead of UNKNOWN. *)
Lemma stage2_compliance_not_unknown :
  ~ (forall env tid tr learned r1 rc rq, stage2_failure rc rq ->
       compliance_status (analyzeTicket env tid tr learned r1 rc rq) = UNKNOWN).
Proof.
  intros H.
  assert (F : stage2_failure (Text (Some (u "SAFE"))) unparsable_qa).
  { right. exists (Some (u "{oops}")), (u "{oops}").
    split; [reflexivity | split; vm_compute; reflexivity]. }
  specialize (H env_example [] (u "vpn") [] no_confidence_reply _ _ F).
  vm_compute in H. discriminate H.
Qed.

(** C8 (amended): whether the result is an error result, and its Stage 1
    fields (solution, confidence, draft, sources, resource, error), do not
    depend on the Stage 2 outcomes, so a Stage 2 failure never turns the
    analysis into an error result (the error results come from Stage 1 and
    its conversions). After any Stage 2 failure the QA score and coaching
    tip are null and the red flags empty. The compliance status is UNKNOWN
    when a Stage 2 request fails, the compliance [text()] throws or the
    compliance prompt cannot be built from the solution ([slice_ok]);
    otherwise, on a result without error, it is the verdict of the
    compliance reply, also when only the QA part fails. *)
Theorem stage2_failure_contained env tid tr learned r1 rc rq :
  let res := analyzeTicket env tid tr learned r1 rc rq in
  (forall rc' rq', stage1_fields (analyzeTicket env tid tr learned r1 rc' rq') = stage1_fields res) /\
  (stage2_failure rc rq -> qa_score res = None /\ red_flags res = [] /\ coaching_tip res = None) /\
  ((exists m, rc = Rejected m \/ rc = TextThrows m \/ rq = Rejected m) \/ slice_ok (solution res) = false ->
   compliance_status res = UNKNOWN) /\
  (error res = None -> forall ct, rc = Text ct -> (forall m, rq <> Rejected m) ->
   slice_ok (solution res) = true -> compliance_status res = compliance_of ct).
Proof.
  cbn zeta. rewrite analyzeTicket_unfold.
  assert (R : forall rc' rq', analyzeTicket env tid tr learned r1 rc' rq' =
     if negb (key_ok env) then missing_key_result else
     match analysis env (sources_of env tid tr learned) r1 rc' rq' with
     | inl message => failure_result message | inr res => res end)
    by (intros; apply analyzeTicket_unfold).
  destruct (key_ok env); cbn [negb] in R |- *.
  - destruct (analysis_shape env (sources_of env tid tr learned) r1) as [[m H]|[sol [c [d [rr H]]]]];
      rewrite H.
    + split; [intros rc' rq'; rewrite R, H; reflexivity|].
      split; [intros _; repeat split|]. split; [intros _; reflexivity | discriminate].
    + split; [intros rc' rq'; rewrite R, H; reflexivity|]. cbn [qa_score red_flags coaching_tip
        compliance_status solution error].
      split; [apply stage2_failure_qa|]. split; [apply stage2_unknown|].
      intros _ ct -> Rq S. apply stage2_verdict; assumption.
  - split; [intros rc' rq'; rewrite R; reflexivity|].
    split; [intros _; repeat split|]. split; [intros _; reflexivity | discriminate].
Qed.

Lemma stage2_failure_contained_witness :
  let res := analyzeTicket env_example [] (u "vpn") [] no_confidence_reply (Text (Some (u "SAFE"))) unparsable_qa in
  error res = None /\ stage2_failure (Text (Some (u "SAFE"))) unparsable_qa /\
  (qa_score res = None /\ red_flags res = [] /\ coaching_tip res = None) /\
  compliance_status res = compliance_of (Some (u "SAFE")) /\
  (forall rc' rq', stage1_fields (analyzeTicket env_example [] (u "vpn") [] no_confidence_reply rc' rq')
                   = stage1_fields res).
Proof.
  cbn zeta.
  destruct (stage2_failure_contained env_example [] (u "vpn") [] no_confidence_reply
              (Text (Some (u "SAFE"))) unparsable_qa) as [S1 [Q [_ V]]].
  assert (E : error (analyzeTicket env_example [] (u "vpn") [] no_confidence_reply
                       (Text (Some (u "SAFE"))) unparsable_qa) = None) by (vm_compute; reflexivity).
  assert (F : stage2_failure (Text (Some (u "SAFE"))) unparsable_qa).
  { right. exists (Some (u "{oops}")), (u "{oops}").
    split; [reflexivity | split; vm_compute; reflexivity]. }
  split; [exact E|]. split; [exact F|]. split; [exact (Q F)|]. split; [|exact S1].
  apply V; [exact E | reflexivity | intros m; discriminate | vm_compute; reflexivity].
Defined.

End AnalyzeProofs.

Module DashboardProofs.
Import Json Dashboard.
Local Open Scope N_scope.

(** [Array.isArray(data.k) ? data.k : []], stated on the parsed value. *)
Definition field_ok (data : jvalue) (k : jstr) (l : list jvalue) : Prop :=
  match AnalyzeTicket.get data k with Some (JArr l') => l = l' | _ => l = [] end.

Lemma array_or_empty_ok data k : field_ok data k (array_or_empty (AnalyzeTicket.get data k)).
Proof. unfold field_ok. destruct (AnalyzeTicket.get data k) as [[]|]; reflexivity. Qed.

Lemma JSON_parse_empty : JSON_parse [] = None.
Proof. reflexivity. Qed.

(** C10: [loadPersistedState] is total (the model catches whatever the
    body throws) and returns three lists: when the stored text parses to a
    value other than null, each list is the array stored under its name, or
    the empty list when that property is missing or not an array; when
    there is no window, [getItem] throws, nothing is stored, or the text is
    not JSON or is [null], all three lists are empty. *)
Theorem loadPersistedState_total has_window getItem :
  (forall raw data, has_window = true -> getItem = Some (Some raw) ->
     JSON_parse raw = Some data -> data <> JNull ->
     field_ok data (u "published") (l_published (loadPersistedState has_window getItem)) /\
     field_ok data (u "learning") (l_learning (loadPersistedState has_window getItem)) /\
     field_ok data (u "lineage") (l_lineage (loadPersistedState has_window getItem))) /\
  ((has_window = false \/ getItem = None \/ getItem = Some None \/
    (exists raw, getItem = Some (Some raw) /\ (JSON_parse raw = None \/ JSON_parse raw = Some JNull))) ->
   loadPersistedState has_window getItem = loaded_empty).
Proof.
  split.
  - intros raw data -> -> Hp Hn. unfold loadPersistedState, load_body. cbn [negb].
    destruct raw as [|c raw]; [rewrite JSON_parse_empty in Hp; discriminate |].
    rewrite Hp. destruct data; try congruence; cbn [l_published l_learning l_lineage];
      repeat split; apply array_or_empty_ok.
  - intros [->|[->|[->|[raw [-> [Hp|Hp]]]]]]; try reflexivity;
      unfold loadPersistedState, load_body; destruct has_window; try reflexivity; cbn [negb];
      destruct raw; try reflexivity; rewrite Hp; reflexivity.
Qed.

Lemma loadPersistedState_total_witness :
  (forall raw data, true = true -> Some (Some (JsonSafe.uq "{'published':[1]}")) = Some (Some raw) ->
     JSON_parse raw = Some data -> data <> JNull ->
     field_ok data (u "published") (l_published (loadPersistedState true (Some (Some (JsonSafe.uq "{'published':[1]}"))))) /\
     field_ok data (u "learning") (l_learning (loadPersistedState true (Some (Some (JsonSafe.uq "{'published':[1]}"))))) /\
     field_ok data (u "lineage") (l_lineage (loadPersistedState true (Some (Some (JsonSafe.uq "{'published':[1]}")))))) /\
  ((true = false \/ Some (Some (JsonSafe.uq "{'published':[1]}")) = None \/
    Some (Some (JsonSafe.uq "{'published':[1]}")) = Some None \/
    (exists raw, Some (Some (JsonSafe.uq "{'published':[1]}")) = Some (Some raw) /\
       (JSON_parse raw = None \/ JSON_parse raw = Some JNull))) ->
   loadPersistedState true (Some (Some (JsonSafe.uq "{'published':[1]}"))) = loaded_empty).
Proof. exact (loadPersistedState_total true (Some (Some (JsonSafe.uq "{'published':[1]}")))). Defined.

(** The store holds a session with at least one record. *)
Definition nonempty_store (d : Dash) : Prop :=
  exists s, stored d = Some s /\ all_empty s = false.

Definition records (s : Session) : nat :=
  (List.length (published s) + List.length (learning s) + List.length (lineage s))%nat.

Lemma all_empty_records s : all_empty s = true -> records s = 0%nat.
Proof.
  unfold all_empty, records. destruct s as [[] [] []]; cbn; congruence.
Qed.

Lemma step_write ok e d :
  stored (step ok e d) = stored d \/
  (stored (step ok e d) = Some (mem (step ok e d)) /\ all_empty (mem (step ok e d)) = false).
Proof.
  unfold step. destruct (apply_event e (mem d)) as [s'|]; [| left; reflexivity].
  unfold persist_effect. cbn [mem stored]. destruct (all_empty s') eqn:E; [left; reflexivity |].
  destruct ok; cbn; [right; split; [reflexivity | exact E] | left; reflexivity].
Qed.

(** C2: every write of the store, at any transition, is of the in-memory
    session and that session has a record, so a stored non-empty session is
    never replaced by an empty one along any sequence of transitions (the
    mount included: its first effect sees the empty initial lists and does
    not write); and a transition that adds a record leaves the store equal
    to the in-memory session once [setItem] has succeeded. *)
Theorem persistence_never_blanks :
  (forall ok e d,
     stored (step ok e d) = stored d \/
     (stored (step ok e d) = Some (mem (step ok e d)) /\ all_empty (mem (step ok e d)) = false)) /\
  (forall trace d, nonempty_store d -> nonempty_store (run trace d)) /\
  (forall stored0 loaded ok0 ok1,
     stored (mount stored0 loaded ok0 ok1) = stored0 \/
     (stored (mount stored0 loaded ok0 ok1) = Some loaded /\ all_empty loaded = false)) /\
  (forall e d s', apply_event e (mem d) = Some s' -> (records (mem d) < records s')%nat ->
     mem (step true e d) = s' /\ stored (step true e d) = Some (mem (step true e d))).
Proof.
  split; [exact step_write |]. split.
  { intros trace. induction trace as [|[ok e] tr IH]; intros d H; [exact H |].
    cbn [run]. apply IH. destruct (step_write ok e d) as [E|[E F]].
    - unfold nonempty_store. rewrite E. exact H.
    - exists (mem (step ok e d)). split; assumption. }
  split.
  { intros stored0 loaded ok0 ok1. unfold mount.
    replace (persist_effect ok0 (mkDash empty_session stored0)) with (mkDash empty_session stored0)
      by reflexivity.
    unfold step, apply_event, persist_effect. cbn [mem stored].
    destruct (all_empty loaded) eqn:E; [left; reflexivity |].
    destruct ok1; cbn; [right; split; [reflexivity | first [exact E | reflexivity]] | left; reflexivity]. }
  intros e d s' A L. unfold step. rewrite A. unfold persist_effect. cbn [mem stored].
  destruct (all_empty s') eqn:E.
  - apply all_empty_records in E. lia.
  - split; reflexivity.
Qed.

Definition dash_example : Dash := mkDash empty_session None.

Lemma persistence_never_blanks_witness :
  apply_event (Dismiss (Some (u "CS-1")) 5) (mem dash_example) =
    Some (mkSession [] [mkEvent gap_detected (u "CS-1") None (u "Draft dismissed (not published)") 5] []) /\
  mem (step true (Dismiss (Some (u "CS-1")) 5) dash_example) =
    mkSession [] [mkEvent gap_detected (u "CS-1") None (u "Draft dismissed (not published)") 5] [] /\
  stored (step true (Dismiss (Some (u "CS-1")) 5) dash_example) =
    Some (mem (step true (Dismiss (Some (u "CS-1")) 5) dash_example)).
Proof.
  assert (A : apply_event (Dismiss (Some (u "CS-1")) 5) (mem dash_example) =
    Some (mkSession [] [mkEvent gap_detected (u "CS-1") None (u "Draft dismissed (not published)") 5] []))
    by reflexivity.
  split; [exact A |].
  apply (proj2 (proj2 (proj2 persistence_never_blanks)) _ _ _ A).
  cbn. lia.
Defined.

(** C6: approving a pending draft (non-empty, with a selected ticket)
    appends exactly one article, one [approved] event carrying the new id
    and one lineage row (source [Ticket], the ticket id, the first 200 code
    units of the body), and leaves the rest of the three lists as they
    were; the id is [KB-] and the first [Date.now()] reading. Without a
    draft or a ticket the handler returns early. *)
Theorem approve_publish_appends draft ticket now1 now2 now3 s :
  (forall d tid, draft = Some d -> d <> [] -> ticket = Some tid ->
   exists s' kbId, handleApprovePublish draft ticket now1 now2 now3 s = Some (s', kbId) /\
     kbId = u "KB-" ++ N_to_string now1 /\
     published s' = published s ++ [mkPublished kbId (draft_title d) (draft_body d) now2 tid] /\
     learning s' = learning s ++ [mkEvent approved tid (Some kbId) (u "Article approved & published") now3] /\
     lineage s' = lineage s ++ [mkLineage kbId (u "Ticket") tid (Some (firstn 200 (draft_body d)))]) /\
  (draft = None \/ draft = Some [] \/ ticket = None ->
   handleApprovePublish draft ticket now1 now2 now3 s = None).
Proof.
  split.
  - intros d tid -> Hd ->. destruct d as [|c d]; [congruence |].
    eexists _, _. split; [reflexivity |]. repeat split.
  - intros [->|[-> | ->]]; [reflexivity | reflexivity |].
    destruct draft as [[|]|]; reflexivity.
Qed.

Lemma approve_publish_appends_witness :
  exists s' kbId,
    handleApprovePublish (Some (u "Title: VPN")) (Some (u "CS-7")) 42 43 44 empty_session = Some (s', kbId) /\
    kbId = u "KB-" ++ N_to_string 42 /\
    published s' = published empty_session ++
      [mkPublished kbId (draft_title (u "Title: VPN")) (draft_body (u "Title: VPN")) 43 (u "CS-7")] /\
    learning s' = learning empty_session ++
      [mkEvent approved (u "CS-7") (Some kbId) (u "Article approved & published") 44] /\
    lineage s' = lineage empty_session ++
      [mkLineage kbId (u "Ticket") (u "CS-7") (Some (firstn 200 (draft_body (u "Title: VPN"))))].
Proof.
  apply (proj1 (approve_publish_appends (Some (u "Title: VPN")) (Some (u "CS-7")) 42 43 44 empty_session)
           (u "Title: VPN") (u "CS-7")); [reflexivity | discriminate | reflexivity].
Defined.

End DashboardProofs.

Module DraftProofs.
Import Dashboard.
Local Open Scope N_scope.

(** The title as the spec words it: the text after the first [Title:]
    marker up to the end of its line, trimmed. *)
Fixpoint take_line (s : jstr) : jstr :=
  match s with
  | [] => []
  | c :: s' => if is_line_term c then [] else c :: take_line s'
  end.

Definition line_title (draft : jstr) : jstr :=
  match first_match (marker_ci (u "title:")) draft with
  | Some r => trim (take_line r)
  | None => u "New knowledge article"
  end.

Definition vpn_draft : jstr := u "Title: VPN Setup" ++ [10; 10] ++ u "Body: Do X then Y.".

Definition crlf_draft : jstr := u "Title: VPN Setup" ++ [13; 10] ++ u "Body: Do X then Y.".

(** The texts after each (case-insensitive) occurrence of a marker, the
    occurrences taken from left to right. *)
Fixpoint suffix_hits (m : jstr -> option jstr) (d : jstr) : list jstr :=
  match m d with Some r => [r] | None => [] end ++
  match d with [] => [] | _ :: d' => suffix_hits m d' end.

(** A text that starts with a line ending in CR LF, holding a character
    other than whitespace and no other line terminator. *)
Definition crlf_line (r : jstr) : Prop :=
  exists line rest, r = line ++ 13 :: 10 :: rest /\
    (forall c, In c line -> is_line_term c = false) /\ (exists c, In c line /\ is_ws c = false).

Section FirstMatch.
Variables (m : jstr -> option jstr) (g : jstr -> option jstr) (f : jstr -> option jstr).
Hypothesis f_def : forall s, f s = match m s with Some r => g r | None => None end.

Lemma first_match_hit d r x :
  first_match m d = Some r -> g r = Some x -> first_match f d = Some x.
Proof.
  induction d as [|c d IH]; cbn; rewrite f_def.
  - destruct (m []); [intros E; injection E as <-; intros G; rewrite G; reflexivity | discriminate].
  - destruct (m (c :: d)); [intros E; injection E as <-; intros G; rewrite G; reflexivity | exact IH].
Qed.

Lemma first_match_miss d : first_match m d = None -> first_match f d = None.
Proof.
  induction d as [|c d IH]; cbn; rewrite f_def.
  - destruct (m []); [discriminate | reflexivity].
  - destruct (m (c :: d)); [discriminate | exact IH].
Qed.
End FirstMatch.

Lemma first_match_all_miss (m g f : jstr -> option jstr) (P : jstr -> Prop) d :
  (forall s, f s = match m s with Some r => g r | None => None end) ->
  (forall r, P r -> g r = None) -> Forall P (suffix_hits m d) -> first_match f d = None.
Proof.
  intros Hf Hg. induction d as [|c d IH]; cbn [suffix_hits first_match]; rewrite Hf;
    destruct (m _) as [r|] eqn:E; cbn [app]; intros H.
  - inversion H as [|x l Pr _]. rewrite (Hg r Pr). reflexivity.
  - reflexivity.
  - inversion H as [|x l Pr Hl]. rewrite (Hg r Pr). exact (IH Hl).
  - exact (IH H).
Qed.

Lemma not_line_term_nl c : is_line_term c = false -> (c =? 10) = false.
Proof. unfold is_line_term. destruct (c =? 10); [discriminate | reflexivity]. Qed.

Lemma lazy_line_app post tail acc :
  (forall c, In c post -> is_line_term c = false) ->
  (tail = [] \/ exists t', tail = 10 :: t') ->
  lazy_line acc (post ++ tail) = Some (rev acc ++ post).
Proof.
  revert acc. induction post as [|c post IH]; intros acc P T; cbn.
  - rewrite app_nil_r. destruct T as [->|[t' ->]]; reflexivity.
  - assert (Hc : is_line_term c = false) by (apply P; left; reflexivity).
    rewrite (not_line_term_nl c Hc), Hc. rewrite IH; [| intros x Hx; apply P; right; exact Hx | exact T].
    cbn. rewrite <- app_assoc. reflexivity.
Qed.

Lemma lazy_line_cr line rest acc :
  (forall c, In c line -> is_line_term c = false) -> lazy_line acc (line ++ 13 :: rest) = None.
Proof.
  revert acc. induction line as [|c line IH]; intros acc P; [reflexivity|].
  assert (Hc : is_line_term c = false) by (apply P; left; reflexivity).
  cbn. rewrite (not_line_term_nl c Hc), Hc. apply IH. intros x Hx; apply P; right; exact Hx.
Qed.

Lemma ws_then_line_cr line rest :
  (forall c, In c line -> is_line_term c = false) -> (exists c, In c line /\ is_ws c = false) ->
  ws_then_line (line ++ 13 :: rest) = None.
Proof.
  induction line as [|c line IH]; intros P [x [Hx Wx]]; [destruct Hx|].
  assert (Hc : is_line_term c = false) by (apply P; left; reflexivity).
  assert (Cap : capture_line ((c :: line) ++ 13 :: rest) = None).
  { cbn. rewrite Hc. apply lazy_line_cr. intros y Hy; apply P; right; exact Hy. }
  cbn [app ws_then_line]. cbn [app] in Cap. destruct (is_ws c) eqn:Wc; [|exact Cap].
  destruct Hx as [<-|Hx]; [congruence|].
  rewrite IH; [exact Cap | intros y Hy; apply P; right; exact Hy | exists x; split; assumption].
Qed.

Lemma ws_then_line_skip pre s x :
  (forall c, In c pre -> is_ws c = true) -> ws_then_line s = Some x -> ws_then_line (pre ++ s) = Some x.
Proof.
  induction pre as [|c pre IH]; intros P H; [exact H |].
  cbn. rewrite (P c (or_introl eq_refl)). rewrite IH; [reflexivity | | exact H].
  intros y Hy; apply P; right; exact Hy.
Qed.

Lemma trim_start_skip pre s :
  (forall c, In c pre -> is_ws c = true) -> trim_start (pre ++ s) = trim_start s.
Proof.
  induction pre as [|c pre IH]; intros P; [reflexivity |].
  cbn. rewrite (P c (or_introl eq_refl)). apply IH. intros y Hy; apply P; right; exact Hy.
Qed.

Lemma trim_start_idem s : trim_start (trim_start s) = trim_start s.
Proof.
  induction s as [|c s IH]; [reflexivity |]. cbn. destruct (is_ws c) eqn:E; [exact IH |].
  cbn. rewrite E. reflexivity.
Qed.

Lemma first_non_ws (line : jstr) :
  (exists c, In c line /\ is_ws c = false) ->
  exists pre c post, line = pre ++ c :: post /\ (forall x, In x pre -> is_ws x = true) /\ is_ws c = false.
Proof.
  induction line as [|a line IH]; intros [c [Hin Hc]]; [destruct Hin |].
  destruct (is_ws a) eqn:Ea.
  - destruct Hin as [<-|Hin]; [congruence |].
    destruct (IH (ex_intro _ c (conj Hin Hc))) as [pre [c' [post [-> [P Hc']]]]].
    exists (a :: pre), c', post. split; [reflexivity | split; [| exact Hc']].
    intros x [<-|Hx]; [exact Ea | apply P; exact Hx].
  - exists [], a, line. split; [reflexivity | split; [intros x [] | exact Ea]].
Qed.

(** C5 (the claim refuted): a draft whose title line ends in CR LF gets the
    placeholder title, as [.] does not match the carriage return and
    [(?:\n|$)] does not match it either; the title line is [VPN Setup]. *)
Lemma draft_title_not_line :
  ~ (forall draft, draft_title draft = line_title draft).
Proof.
  intros H. specialize (H crlf_draft). vm_compute in H. discriminate H.
Qed.

(** C5 (the code): the title is the placeholder when the draft has no
    case-insensitive [Title:] marker; after the first marker, if its line
    holds no line terminator, ends at a line feed or at the end of the
    draft, and has a non-blank character, the title is that line trimmed.
    When every [Title:] marker of the draft is followed by a non-blank line
    ending in CR LF, the title is the placeholder: [.] does not match the
    carriage return, nor does [(?:\n|$)]. The body is the text after the
    first case-insensitive [Body:] marker, trimmed, or the whole draft
    verbatim without a marker. The example draft gives [VPN Setup] and
    [Do X then Y.]; the CR LF variant gives the placeholder title. *)
Theorem draft_fields :
  (forall d, first_match (marker_ci (u "title:")) d = None -> draft_title d = u "New knowledge article") /\
  (forall d, first_match (marker_ci (u "body:")) d = None -> draft_body d = d) /\
  (forall d r, first_match (marker_ci (u "body:")) d = Some r -> draft_body d = trim r) /\
  (forall d line tail,
     first_match (marker_ci (u "title:")) d = Some (line ++ tail) ->
     (forall c, In c line -> is_line_term c = false) ->
     (tail = [] \/ exists t', tail = 10 :: t') ->
     (exists c, In c line /\ is_ws c = false) ->
     draft_title d = trim line) /\
  (forall d, Forall crlf_line (suffix_hits (marker_ci (u "title:")) d) ->
     draft_title d = u "New knowledge article") /\
  draft_title vpn_draft = u "VPN Setup" /\ draft_body vpn_draft = u "Do X then Y." /\
  draft_title crlf_draft = u "New knowledge article" /\ draft_body crlf_draft = u "Do X then Y.".
Proof.
  split.
  { intros d H. unfold draft_title.
    rewrite (first_match_miss _ ws_then_line title_at (fun s => eq_refl) d H). reflexivity. }
  split.
  { intros d H. unfold draft_body.
    rewrite (first_match_miss _ (fun r => Some (trim_start r)) body_at (fun s => eq_refl) d H).
    reflexivity. }
  split.
  { intros d r H. unfold draft_body.
    rewrite (first_match_hit _ (fun r => Some (trim_start r)) body_at (fun s => eq_refl) d r _ H eq_refl).
    unfold trim. rewrite trim_start_idem. reflexivity. }
  split.
  { intros d line tail H NL T W.
    destruct (first_non_ws line W) as [pre [c [post [-> [P Hc]]]]].
    assert (NLc : is_line_term c = false) by (apply NL; apply in_or_app; right; left; reflexivity).
    assert (NLp : forall x, In x post -> is_line_term x = false)
      by (intros x Hx; apply NL; apply in_or_app; right; right; exact Hx).
    assert (G : ws_then_line ((pre ++ c :: post) ++ tail) = Some (c :: post)).
    { rewrite <- app_assoc. apply ws_then_line_skip; [exact P |].
      cbn. rewrite Hc. cbn. rewrite NLc. rewrite lazy_line_app; [reflexivity | exact NLp | exact T]. }
    unfold draft_title.
    rewrite (first_match_hit _ ws_then_line title_at (fun s => eq_refl) d _ _ H G).
    unfold trim. rewrite trim_start_skip by exact P. reflexivity. }
  split.
  { intros d H. unfold draft_title.
    rewrite (first_match_all_miss _ ws_then_line title_at crlf_line d (fun s => eq_refl)); [reflexivity| |exact H].
    intros r [line [rest [-> [NL W]]]]. apply ws_then_line_cr; assumption. }
  vm_compute. repeat split.
Qed.

Lemma draft_fields_witness :
  Forall crlf_line (suffix_hits (marker_ci (u "title:")) crlf_draft) /\
  draft_title crlf_draft = u "New knowledge article" /\
  draft_title vpn_draft = u "VPN Setup" /\ draft_body vpn_draft = u "Do X then Y.".
Proof.
  assert (H : Forall crlf_line (suffix_hits (marker_ci (u "title:")) crlf_draft)).
  { vm_compute. constructor; [|constructor].
    exists (u " VPN Setup"), (u "Body: Do X then Y."). split; [reflexivity|]. split.
    - intros c Hc. apply Bool.negb_true_iff. revert c Hc.
      apply (proj1 (forallb_forall (fun c => negb (is_line_term c)) (u " VPN Setup"))).
      vm_compute. reflexivity.
    - exists 86. split; [right; left; reflexivity | reflexivity]. }
  destruct draft_fields as [_ [_ [_ [_ [X [A [B _]]]]]]].
  split; [exact H|]. split; [exact (X crlf_draft H)|]. split; [exact A | exact B].
Defined.

End DraftProofs.

Module AnalyzeExtraProofs.
Import Json JsonSafe Search AnalyzeTicket AnalyzeProofs.
Local Open Scope N_scope.

Import SuggestTickets.

Lemma last_close_of_app cl x y :
  last_close_of cl (x ++ y) =
  match last_close_of cl y with Some p => Some (x ++ p) | None => last_close_of cl x end.
Proof.
  induction x as [|c x IH]; simpl.
  - destruct (last_close_of cl y); reflexivity.
  - rewrite IH. destruct (last_close_of cl y); reflexivity.
Qed.

Lemma last_close_of_none cl s : last_close_of cl s = None -> ~ In cl s.
Proof.
  induction s as [|c s IH]; simpl; [tauto|].
  destruct (last_close_of cl s); [discriminate|].
  destruct (N.eqb_spec c cl); [discriminate|]. intros _ [E|H]; [congruence | exact (IH eq_refl H)].
Qed.

Lemma last_close_of_some cl s p : last_close_of cl s = Some p ->
  exists mid post, p = mid ++ [cl] /\ s = p ++ post /\ ~ In cl post.
Proof.
  revert p; induction s as [|c s IH]; intros p; simpl; [discriminate|].
  destruct (last_close_of cl s) as [p'|] eqn:E.
  - intros [= <-]. destruct (IH p' eq_refl) as [mid [post [-> [-> Hn]]]].
    exists (c :: mid), post. simpl. auto.
  - destruct (N.eqb_spec c cl) as [->|]; [intros [= <-] | discriminate].
    exists [], s. split; [reflexivity|]. split; [reflexivity|].
    exact (last_close_of_none cl s E).
Qed.

Lemma last_close_of_noclose cl s : ~ In cl s -> last_close_of cl s = None.
Proof.
  induction s as [|c s IH]; simpl; [reflexivity|].
  intros H. rewrite IH by tauto. destruct (N.eqb_spec c cl); [exfalso; apply H; left; congruence | reflexivity].
Qed.

Lemma delim_match_some op cl s m : delim_match op cl s = Some m ->
  exists pre mid post, s = pre ++ m ++ post /\ m = op :: mid ++ [cl] /\ ~ In op pre /\ ~ In cl post.
Proof.
  revert m; induction s as [|c s IH]; intros m; simpl; [discriminate|].
  destruct (N.eqb_spec c op) as [->|Hc].
  - destruct (last_close_of cl s) as [p|] eqn:E.
    + intros [= <-]. destruct (last_close_of_some cl s p E) as [mid [post [-> [-> Hn]]]].
      exists [], mid, post. simpl. auto.
    + intros H. exfalso. destruct (IH m H) as [pre [mid [post [-> [-> _]]]]].
      apply (last_close_of_none _ _ E). apply in_or_app. right. apply in_or_app. left.
      right. apply in_or_app. right. left. reflexivity.
  - intros H. destruct (IH m H) as [pre [mid [post [-> [-> [Hp Hq]]]]]].
    exists (c :: pre), mid, post. simpl. repeat split; auto. intros [E|E]; [congruence | exact (Hp E)].
Qed.

Lemma delim_match_decomp op cl pre mid post : ~ In op pre -> ~ In cl post ->
  delim_match op cl (pre ++ (op :: mid ++ [cl]) ++ post) = Some (op :: mid ++ [cl]).
Proof.
  intros Hp Hq. induction pre as [|c pre IH]; simpl.
  - rewrite N.eqb_refl, last_close_of_app, (last_close_of_noclose cl post Hq), last_close_of_app.
    simpl. rewrite N.eqb_refl. reflexivity.
  - destruct (N.eqb_spec c op); [exfalso; apply Hp; left; congruence|].
    apply IH. intros H; apply Hp; right; exact H.
Qed.

Lemma delim_match_none_after op cl a t : delim_match op cl (a ++ op :: t) = None -> ~ In cl t.
Proof.
  induction a as [|c a IH]; simpl.
  - rewrite N.eqb_refl. destruct (last_close_of cl t) eqn:E; [discriminate|].
    intros _. exact (last_close_of_none cl t E).
  - destruct (c =? op).
    + destruct (last_close_of cl (a ++ op :: t)) eqn:E; [discriminate|].
      intros _ H. apply (last_close_of_none _ _ E). apply in_or_app. right. right. exact H.
    + exact IH.
Qed.

Lemma delim_match_spec op cl s m :
  (delim_match op cl s = Some m <->
   exists pre mid post, s = pre ++ m ++ post /\ m = op :: mid ++ [cl] /\ ~ In op pre /\ ~ In cl post) /\
  (delim_match op cl s = None <-> forall a b c, s <> a ++ op :: b ++ cl :: c).
Proof.
  split; split.
  - apply delim_match_some.
  - intros [pre [mid [post [-> [-> [Hp Hq]]]]]]. apply delim_match_decomp; assumption.
  - intros H a b c ->. apply (delim_match_none_after op cl a (b ++ cl :: c) H).
    apply in_or_app. right. left. reflexivity.
  - intros H. destruct (delim_match op cl s) as [m'|] eqn:E; [|reflexivity]. exfalso.
    destruct (delim_match_some op cl s m' E) as [pre [mid [post [-> [-> _]]]]].
    apply (H pre mid post). simpl. rewrite <- app_assoc. reflexivity.
Qed.

Lemma last_close_prefix_of s : last_close_prefix s = last_close_of 125 s.
Proof. induction s as [|c s IH]; simpl; [reflexivity|]. rewrite IH. reflexivity. Qed.

Lemma brace_match_delim s : brace_match s = delim_match 123 125 s.
Proof. induction s as [|c s IH]; simpl; [reflexivity|]. rewrite last_close_prefix_of, IH. reflexivity. Qed.

(** [text.match(/\{[\s\S]*\}/)] (Stage 1 and the QA reply): the match is
    the text from the first open brace of the reply to its last close brace,
    which must come after it: no open brace before the match, no close brace
    after it. There is no match exactly when no open brace is followed,
    anywhere later, by a close brace. *)
Theorem brace_match_spec s m :
  (brace_match s = Some m <->
   exists pre mid post, s = pre ++ m ++ post /\ m = 123 :: mid ++ [125] /\ ~ In 123 pre /\ ~ In 125 post) /\
  (brace_match s = None <-> forall a b c, s <> a ++ 123 :: b ++ 125 :: c).
Proof. rewrite brace_match_delim. apply delim_match_spec. Qed.

(** *** Results of [analyzeTicket] *)

Lemma analysis_inr env sources r1 rc rq res : analysis env sources r1 rc rq = inr res ->
  sources_used res = sources /\
  (exists d, draft_of (number_to_string env) d = Some (new_knowledge_draft res)) /\
  (exists rr, resource_of (number_to_string env) rr = Some (recommended_resource res)) /\
  (exists sol, qa_score res = st_qa_score (stage2 sol rc rq) /\
               coaching_tip res = st_coaching_tip (stage2 sol rc rq)).
Proof.
  unfold analysis. destruct r1 as [m|m|t]; try discriminate.
  destruct (parseJsonSafe (json_candidate (reply_text t))) as [parsed|]; [|discriminate].
  destruct parsed; try discriminate; (destruct (qa_prompt env); [discriminate|]);
    (destruct (resource_of _ _) eqn:E1; [|discriminate]);
    (destruct (Number _); [|discriminate]);
    (destruct (draft_of _ _) eqn:E3; [|discriminate]);
    intros H; injection H as <-; cbn [sources_used new_knowledge_draft recommended_resource qa_score coaching_tip];
    (split; [reflexivity|]); (split; [eexists; exact E3|]); (split; [eexists; exact E1|]);
    eexists; split; reflexivity.
Qed.

Lemma analyzeTicket_cases env tid tr learned r1 rc rq :
  let res := analyzeTicket env tid tr learned r1 rc rq in
  res = missing_key_result \/ (exists m, res = failure_result m) \/
  analysis env (sources_of env tid tr learned) r1 rc rq = inr res.
Proof.
  cbn zeta. rewrite analyzeTicket_unfold. destruct (negb (key_ok env)); [left; reflexivity|].
  destruct (analysis env (sources_of env tid tr learned) r1 rc rq); [right; left; eexists; reflexivity|].
  right; right; reflexivity.
Qed.

Lemma trim_start_suffix s : exists p, s = p ++ trim_start s.
Proof.
  induction s as [|c s [p IH]]; simpl; [exists []; reflexivity|].
  destruct (is_ws c); [exists (c :: p); simpl; congruence | exists []; reflexivity].
Qed.

Lemma trim_start_head s : match trim_start s with [] => True | c :: _ => is_ws c = false end.
Proof.
  induction s as [|c s IH]; simpl; [exact I|]. destruct (is_ws c) eqn:E; [exact IH | exact E].
Qed.

Lemma trim_start_nows s : match s with [] => True | c :: _ => is_ws c = false end -> trim_start s = s.
Proof. destruct s as [|c s]; simpl; [reflexivity|]. intros ->. reflexivity. Qed.

Lemma trim_start_idem' s : trim_start (trim_start s) = trim_start s.
Proof. apply trim_start_nows, trim_start_head. Qed.

Lemma trim_idem s : trim (trim s) = trim s.
Proof.
  unfold trim. set (y := trim_start s). set (z := trim_start (rev y)).
  assert (Hz : trim_start (rev z) = rev z).
  { apply trim_start_nows. destruct (trim_start_suffix (rev y)) as [p Hp]. fold z in Hp.
    destruct (rev z) as [|a rz] eqn:Erz; [exact I|].
    assert (Ez : z = rev rz ++ [a]) by (rewrite <- (rev_involutive z), Erz; reflexivity).
    rewrite Ez, app_assoc in Hp.
    assert (Hy : y = a :: rev (p ++ rev rz)) by (rewrite <- (rev_involutive y), Hp, rev_unit; reflexivity).
    pose proof (trim_start_head s) as H. fold y in H. rewrite Hy in H. exact H. }
  rewrite Hz, rev_involutive. unfold z. rewrite trim_start_idem'. reflexivity.
Qed.


Lemma clamp100 q : exists q', Math_max (Fin 0) (Math_min (Fin 100) (Fin q)) = Fin q' /\ (0 <= q' <= 100)%Q.
Proof.
  cbn. destruct (Qle_bool 100 q) eqn:E1; cbn.
  - eexists; split; [reflexivity|]. split; apply Qle_bool_iff; reflexivity.
  - destruct (Qle_bool q 0) eqn:E2; cbn.
    + eexists; split; [reflexivity|]. split; apply Qle_bool_iff; reflexivity.
    + eexists; split; [reflexivity|].
      apply Bool.not_true_iff_false in E1, E2. rewrite Qle_bool_iff in E1, E2.
      split; apply Qlt_le_weak, Qnot_le_lt; assumption.
Qed.

Lemma stage2_qa_tip sol rc rq :
  (st_qa_score (stage2 sol rc rq) = None \/
   exists q, st_qa_score (stage2 sol rc rq) = Some (Math_max (Fin 0) (Math_min (Fin 100) (Fin q)))) /\
  (st_coaching_tip (stage2 sol rc rq) = None \/
   exists s, nonempty (trim s) = true /\ st_coaching_tip (stage2 sol rc rq) = Some (trim s)).
Proof.
  unfold stage2. destruct (slice_ok sol); cbn [negb]; [|split; left; reflexivity].
  destruct rc as [m|m|ct], rq as [m'|m'|qt]; try (split; left; reflexivity).
  destruct (brace_match (reply_text qt)); [|split; left; reflexivity].
  destruct (parseJsonSafe j) as [v|]; [|split; left; reflexivity].
  destruct v; try (split; left; reflexivity); cbn [st_qa_score st_coaching_tip]; split;
    match goal with |- context [match ?g with _ => _ end] => destruct g as [[]|] end;
    try (left; reflexivity); try (right; eexists; reflexivity);
    match goal with |- context [if ?b then _ else _] => destruct b eqn:Eb end;
    try (left; reflexivity); right; eexists; split; [exact Eb | reflexivity].
Qed.


Lemma in_firstn_in {A} n (l : list A) x : In x (firstn n l) -> In x l.
Proof. intros H. rewrite <- (firstn_skipn n l). apply in_or_app. left. exact H. Qed.

Lemma rank_in {A} (l : list (A * nat)) limit a : In a (rank l limit) -> exists n, In (a, n) l.
Proof.
  unfold rank. intros H. apply in_map_iff in H as [[a' n] [Ea Hp]]. cbn in Ea. subst a'.
  apply in_firstn_in, filter_In in Hp as [Hp _]. exists n.
  destruct (SearchProofs.sort_spec l [] (SSorted_nil _)) as [_ [_ Hin]].
  destruct (Hin _ Hp) as [[]|H]. exact H.
Qed.

Lemma search_in articles terms limit a :
  In a (searchKnowledgeArticles articles terms limit) -> In a articles.
Proof.
  unfold searchKnowledgeArticles. intros H. destruct (rank_in _ _ _ H) as [n Hn].
  apply in_map_iff in Hn as [a' [E Ha']]. injection E as -> _. exact Ha'.
Qed.

Lemma search_length articles terms limit :
  (List.length (searchKnowledgeArticles articles terms limit) <= limit)%nat.
Proof. unfold searchKnowledgeArticles, rank. rewrite length_map. apply firstn_le_length. Qed.

(** [analyzeTicket]: the [qa_score] of a result is absent or a finite
    number between 0 and 100 inclusive (the clamp of a JSON number). *)
Theorem qa_score_range env tid tr learned r1 rc rq :
  match qa_score (analyzeTicket env tid tr learned r1 rc rq) with
  | None => True
  | Some x => exists q, x = Fin q /\ (0 <= q <= 100)%Q
  end.
Proof.
  destruct (analyzeTicket_cases env tid tr learned r1 rc rq) as [->|[[m ->]|H]]; [exact I | exact I|].
  destruct (analysis_inr _ _ _ _ _ _ H) as [_ [_ [_ [sol [Hqa _]]]]]. rewrite Hqa.
  destruct (stage2_qa_tip sol rc rq) as [[->|[q ->]] _]; [exact I|].
  destruct (clamp100 q) as [q' [-> Hq']]. exists q'. split; [reflexivity | exact Hq'].
Qed.

(** [analyzeTicket]: the knowledge draft and the coaching tip of a result,
    when present, are non-empty and already trimmed (no whitespace at either
    end). *)
Theorem draft_tip_trimmed env tid tr learned r1 rc rq :
  let res := analyzeTicket env tid tr learned r1 rc rq in
  match new_knowledge_draft res with Some d => nonempty d = true /\ trim d = d | None => True end /\
  match coaching_tip res with Some t => nonempty t = true /\ trim t = t | None => True end.
Proof.
  cbn zeta.
  destruct (analyzeTicket_cases env tid tr learned r1 rc rq) as [->|[[m ->]|H]]; [split; exact I | split; exact I|].
  destruct (analysis_inr _ _ _ _ _ _ H) as [_ [[d Hd] [_ [sol [_ Htip]]]]]. rewrite Htip. split.
  - unfold draft_of in Hd. destruct d as [v|]; [|injection Hd as <-; exact I].
    destruct (truthy (Some v)); [|injection Hd as <-; exact I].
    destruct (js_ToString (number_to_string env) v) as [x|]; [|discriminate].
    injection Hd as <-. destruct (nonempty (trim x)) eqn:E; [|exact I].
    split; [exact E | apply trim_idem].
  - destruct (stage2_qa_tip sol rc rq) as [_ [->|[s [Hs ->]]]]; [exact I|].
    split; [exact Hs | apply trim_idem].
Qed.

(** [analyzeTicket]: a recommended resource, when present, has type KB or
    SCRIPT, and its title, when present, has at most 120 code units. *)
Theorem recommended_resource_shape env tid tr learned r1 rc rq :
  match recommended_resource (analyzeTicket env tid tr learned r1 rc rq) with
  | Some r => (rr_type r = u "KB" \/ rr_type r = u "SCRIPT") /\
              match rr_title r with Some t => (List.length t <= 120)%nat | None => True end
  | None => True
  end.
Proof.
  destruct (analyzeTicket_cases env tid tr learned r1 rc rq) as [->|[[m ->]|H]]; [exact I | exact I|].
  destruct (analysis_inr _ _ _ _ _ _ H) as [_ [_ [[rr Hrr] _]]]. revert Hrr.
  unfold resource_of. destruct rr as [r|]; [|intros E; injection E as <-; exact I].
  destruct (truthy (Some r) && truthy (get r (u "type")) && truthy (get r (u "id")));
    [|intros E; injection E as <-; exact I].
  destruct (get r (u "type")) as [[| | |ty| |]|]; try (intros E; injection E as <-; exact I).
  destruct (get r (u "id")) as [iv|]; [|intros E; injection E as <-; exact I].
  assert (T : (rr_type (mkResource ty [] None) = u "KB" \/ rr_type (mkResource ty [] None) = u "SCRIPT") ->
    forall id ti, (match ti with Some t => (List.length t <= 120)%nat | None => True end) ->
    Some (Some (mkResource ty id ti)) = Some (recommended_resource (analyzeTicket env tid tr learned r1 rc rq)) ->
    match recommended_resource (analyzeTicket env tid tr learned r1 rc rq) with
    | Some r => (rr_type r = u "KB" \/ rr_type r = u "SCRIPT") /\
                match rr_title r with Some t => (List.length t <= 120)%nat | None => True end
    | None => True end).
  { intros Ty id ti Ti E. injection E as <-. split; [exact Ty | exact Ti]. }
  destruct (jstr_eqb ty (u "KB") || jstr_eqb ty (u "SCRIPT")) eqn:E12; [|intros E; injection E as <-; exact I].
  assert (Ty : rr_type (mkResource ty [] None) = u "KB" \/ rr_type (mkResource ty [] None) = u "SCRIPT").
  { cbn [rr_type]. apply orb_true_iff in E12 as [E|E]; [left|right]; apply JsStringFacts.jstr_eqb_eq; exact E. }
  destruct (js_ToString (number_to_string env) iv) as [id|]; [|discriminate].
  destruct (get r (u "title")) as [tv|]; [|apply (T Ty id None I)].
  destruct (truthy (Some tv)); [|apply (T Ty id None I)].
  destruct (js_ToString (number_to_string env) tv) as [x|]; [|discriminate].
  apply (T Ty id (Some (firstn 120 x))). apply firstn_le_length.
Qed.

(** [analyzeTicket]: a result without an error lists as its sources the
    learned articles first, in order, then at most six seed articles of the
    knowledge base (some of them as soon as the base is not empty); every
    source snippet of any result has at most 200 code units. *)
Theorem analyzeTicket_sources env tid tr learned r1 rc rq :
  let res := analyzeTicket env tid tr learned r1 rc rq in
  Forall (fun s => (List.length (ks_snippet s) <= 200)%nat) (sources_used res) /\
  (error res = None ->
   exists seeds, sources_used res = map learned_source learned ++ map seed_source seeds /\
     (List.length seeds <= 6)%nat /\ incl seeds (knowledge env) /\
     (knowledge env <> [] -> seeds <> [])).
Proof.
  cbn zeta.
  destruct (analyzeTicket_cases env tid tr learned r1 rc rq) as [->|[[m ->]|H]];
    [split; [constructor | discriminate] | split; [constructor | discriminate]|].
  destruct (analysis_inr _ _ _ _ _ _ H) as [Hs _]. rewrite Hs. unfold sources_of.
  set (rel := searchKnowledgeArticles (knowledge env) _ 6). split.
  - apply Forall_app. split; apply Forall_map, Forall_forall; intros a _; apply firstn_le_length.
  - intros _. exists (match rel with [] => firstn 5 (knowledge env) | _ => rel end).
    split; [reflexivity|]. destruct rel as [|a l] eqn:Er.
    + split; [rewrite length_firstn; lia|]. split; [intros x Hx; exact (in_firstn_in _ _ _ Hx)|].
      destruct (knowledge env); [congruence | intros _; discriminate].
    + rewrite <- Er. split; [apply search_length|]. split; [intros x Hx; exact (search_in _ _ _ _ Hx)|].
      rewrite Er. intros _; discriminate.
Qed.

Lemma analyzeTicket_sources_witness :
  let env := mkEnv (Some (u "key")) (fun _ => None)
    [mkKB (u "KB-1") (Some (u "VPN setup")) (Some (u "Restart the VPN client.")) None;
     mkKB (u "KB-2") (Some (u "Printer jam")) (Some (u "Open tray B.")) None]
    (inr []) (fun _ => u "0") (u "Unexpected token") (u "null") (u "Cannot convert object to primitive value") in
  let learned := [mkLearned (u "LA-1") (u "VPN drops") (u "Reinstall the client.") (u "CS-7")] in
  let res := analyzeTicket env [] (u "vpn") learned no_confidence_reply (Text None) (Text None) in
  error res = None /\ knowledge env <> [] /\
  exists seeds, sources_used res = map learned_source learned ++ map seed_source seeds /\
     (List.length seeds <= 6)%nat /\ incl seeds (knowledge env) /\
     (knowledge env <> [] -> seeds <> []).
Proof.
  cbn zeta. split; [vm_compute; reflexivity|]. split; [discriminate|].
  apply (proj2 (analyzeTicket_sources _ [] (u "vpn") _ no_confidence_reply (Text None) (Text None))).
  vm_compute. reflexivity.
Defined.

End AnalyzeExtraProofs.

Module SuggestProofs.
Import Json JsonSafe AnalyzeTicket SuggestTickets AnalyzeExtraProofs.
Local Open Scope N_scope.

(** The values the [map] callback passes to [String], in order: the four
    fields with their fallbacks, then the transcript when there is one. *)
Definition field_reads (t : jvalue) : list jvalue :=
  [coalesce (nullish_get t (u "Subject")) (coalesce (nullish_get t (u "subject")) (JStr (u "No subject")));
   coalesce (nullish_get t (u "Description")) (coalesce (nullish_get t (u "description")) (JStr []));
   coalesce (nullish_get t (u "Priority")) (coalesce (nullish_get t (u "priority")) (JStr (u "Medium")));
   coalesce (nullish_get t (u "Category")) (coalesce (nullish_get t (u "category")) (JStr (u "General")))] ++
  match nullish_get t (u "Transcript") with
  | Some v => [v]
  | None => match nullish_get t (u "transcript") with Some v => [v] | None => [] end
  end.

(** An element the callback maps without throwing: not null, and no value it
    converts has an own [toString]. *)
Definition elem_ok (t : jvalue) : bool :=
  match t with JNull => false | _ => negb (existsb prim_throws (field_reads t)) end.

(** The message of what the callback throws on a failing element. *)
Definition elem_error (te ce : jstr) (t : jvalue) : jstr :=
  match t with JNull => te | _ => ce end.

Lemma suggestion_spec nts te ce t :
  match suggestion nts te ce t with
  | inr _ => elem_ok t = true
  | inl m => elem_ok t = false /\ m = elem_error te ce t
  end.
Proof.
  destruct t; [split; reflexivity|..];
  cbv beta iota zeta delta [suggestion elem_ok field_reads elem_error conv js_ToString];
  repeat match goal with
    |- context [nullish_get ?x ?k] => let o := fresh "o" in set (o := nullish_get x k) in *; clearbody o
  end;
  repeat (cbn [existsb app]; match goal with
    | |- context [prim_throws ?x] => destruct (prim_throws x)
    | |- context [match ?o with Some _ => _ | None => _ end] => destruct o
  end);
  cbn; auto.
Qed.

Lemma map_suggestions_spec nts te ce l :
  match map_suggestions nts te ce l with
  | inr s => Forall (fun x => elem_ok x = true) l /\ List.length s = List.length l
  | inl m => exists pre x post, l = pre ++ x :: post /\ Forall (fun y => elem_ok y = true) pre /\
               elem_ok x = false /\ m = elem_error te ce x
  end.
Proof.
  induction l as [|t l IH]; simpl; [split; [constructor | reflexivity]|].
  pose proof (suggestion_spec nts te ce t) as H.
  destruct (suggestion nts te ce t) as [m|st]; cbn [sbind].
  - destruct H as [H1 H2]. exists [], t, l. split; [reflexivity|]. split; [constructor|]. split; assumption.
  - destruct (map_suggestions nts te ce l) as [m|s]; cbn [sbind].
    + destruct IH as [pre [x [post [-> [Hp [Hx Hm]]]]]]. exists (t :: pre), x, post.
      split; [reflexivity|]. split; [constructor; assumption|]. split; assumption.
    + destruct IH as [Hf Hl]. split; [constructor; assumption | simpl; congruence].
Qed.

Lemma map_suggestions_inr nts te ce l s : map_suggestions nts te ce l = inr s -> List.length s = List.length l.
Proof. intros E. pose proof (map_suggestions_spec nts te ce l) as H. rewrite E in H. apply H. Qed.

Lemma first_fail_unique (P : jvalue -> bool) pre x post pre' x' post' :
  pre ++ x :: post = pre' ++ x' :: post' -> Forall (fun y => P y = true) pre -> P x = false ->
  Forall (fun y => P y = true) pre' -> P x' = false -> x = x'.
Proof.
  revert pre'. induction pre as [|y pre IH]; intros [|y' pre'] E Hp Hx Hp' Hx'; simpl in E;
    injection E as E1 E2; subst.
  - reflexivity.
  - inversion Hp'; congruence.
  - inversion Hp; congruence.
  - inversion Hp; inversion Hp'; subst. eapply IH; eauto.
Qed.

(** The lexer only ever pushes tokens on top of those it has. *)
Lemma lex_step_bottom ctrl toks st c toks' st' :
  lex_step ctrl (toks, st) c = Some (toks', st') -> exists p, toks' = p ++ toks.
Proof.
  unfold lex_step, flush. destruct st as [bare|acc|acc|acc n v]; [destruct bare|..];
  repeat match goal with
    | |- context [if ?b then _ else _] => destruct b
    | |- context [match ?o with Some _ => _ | None => _ end] => destruct o
  end;
  intros H; inversion H; subst;
  solve [exists []; reflexivity | eexists [_]; reflexivity | eexists [_; _]; reflexivity].
Qed.

Lemma lex_from_bottom ctrl t : forall toks st toks' st',
  lex_from ctrl (toks, st) t = Some (toks', st') -> exists p, toks' = p ++ toks.
Proof.
  induction t as [|c t IH]; intros toks st toks' st'; cbn [lex_from].
  - intros [= <- _]. exists []. reflexivity.
  - destruct (lex_step ctrl (toks, st) c) as [[toks1 st1]|] eqn:E; [|intros ?; discriminate].
    intros H. destruct (IH _ _ _ _ H) as [p ->]. destruct (lex_step_bottom _ _ _ _ _ _ E) as [q ->].
    exists (p ++ q). apply app_assoc.
Qed.

Lemma lex_lbrack ctrl r ts : lex ctrl (91 :: r) = Some ts -> exists ts', ts = TLBrack :: ts'.
Proof.
  unfold lex. cbn [lex_from].
  replace (lex_step ctrl ([], LOut []) 91) with (Some ([TLBrack], LOut [])) by reflexivity.
  destruct (lex_from ctrl ([TLBrack], LOut []) r) as [[toks st]|] eqn:E; [|intros ?; discriminate].
  destruct (lex_from_bottom _ _ _ _ _ _ E) as [p ->].
  unfold lex_finish. destruct st as [bare|acc|acc|acc n v]; try (intros ?; discriminate).
  intros [= <-]. unfold flush. destruct bare.
  - rewrite rev_unit. eexists; reflexivity.
  - rewrite app_comm_cons, rev_unit. eexists; reflexivity.
Qed.

Lemma parse_elements_arr f : forall r acc v rest,
  parse_elements f r acc = Some (v, rest) -> exists l, v = JArr l.
Proof.
  induction f as [|f IH]; intros r acc v rest; simpl; [discriminate|].
  destruct (parse_value f r) as [[v' [|tk r']]|]; try discriminate; destruct tk; try discriminate;
  intros H; first [exact (IH _ _ _ _ H) | injection H as <- _; eexists; reflexivity].
Qed.

Lemma parse_value_lbrack f ts v rest :
  parse_value f (TLBrack :: ts) = Some (v, rest) -> exists l, v = JArr l.
Proof.
  destruct f as [|f]; simpl; [discriminate|].
  destruct ts as [|[] ts]; try apply parse_elements_arr. intros [= <- _]. eexists; reflexivity.
Qed.

Lemma json_parse_lbrack r v : JSON_parse (91 :: r) = Some v -> exists l, v = JArr l.
Proof.
  unfold JSON_parse. destruct (lex strict_ctrl (91 :: r)) as [ts|] eqn:E; [|intros ?; discriminate].
  destruct (lex_lbrack _ _ _ E) as [ts' ->]. unfold parse_tokens.
  destruct (parse_value _ (TLBrack :: ts')) as [[v' []]|] eqn:E'; try (intros ?; discriminate).
  intros [= <-]. exact (parse_value_lbrack _ _ _ _ E').
Qed.

(** What [text.match(/\[[\s\S]*\]/)] returns parses, if at all, to an array. *)
Lemma bracket_parse_array s m v :
  bracket_match s = Some m -> parseJsonSafe m = Some v -> exists l, v = JArr l.
Proof.
  intros Hm. apply (proj1 (proj1 (delim_match_spec 91 93 s m))) in Hm.
  destruct Hm as [pre [mid [post [_ [-> _]]]]].
  unfold parseJsonSafe. destruct (JSON_parse (91 :: mid ++ [93])) as [v'|] eqn:E.
  - intros [= <-]. exact (json_parse_lbrack _ _ E).
  - change (rescan control_replacement false false (91 :: mid ++ [93]))
      with (91 :: rescan control_replacement false false (mid ++ [93])).
    apply json_parse_lbrack.
Qed.

(** [suggestTickets]: at most three suggestions, and none at all when an
    error is reported. *)
Theorem suggestTickets_bounds apiKey nts se te ce r :
  let res := suggestTickets apiKey nts se te ce r in
  (List.length (suggestions res) <= 3)%nat /\
  match s_error res with Some _ => suggestions res = [] | None => True end.
Proof.
  cbn zeta. unfold suggestTickets.
  destruct apiKey as [[|k key]|]; [split; [cbn; lia | reflexivity] | | split; [cbn; lia | reflexivity]].
  destruct r as [m|m|t]; [split; [cbn; lia | reflexivity] .. |].
  cbv zeta. assert (G : forall a, (List.length (suggestions
      match map_suggestions nts te ce (firstn 3 match a with JArr l => l | _ => [] end) with
      | inr s => mkSuggestResult s None | inl m => mkSuggestResult [] (Some m) end) <= 3)%nat /\
    match s_error match map_suggestions nts te ce (firstn 3 match a with JArr l => l | _ => [] end) with
      | inr s => mkSuggestResult s None | inl m => mkSuggestResult [] (Some m) end
    with Some _ => suggestions match map_suggestions nts te ce (firstn 3 match a with JArr l => l | _ => [] end) with
      | inr s => mkSuggestResult s None | inl m => mkSuggestResult [] (Some m) end = [] | None => True end).
  { intros a. destruct (map_suggestions nts te ce (firstn 3 match a with JArr l => l | _ => [] end)) as [m|s] eqn:E;
      cbn [suggestions s_error]; [split; [cbn; lia | reflexivity]|].
    split; [|exact I]. rewrite (map_suggestions_inr _ _ _ _ _ E), length_firstn. lia. }
  destruct (bracket_match (reply_text t)) as [m|]; [|apply (G (JArr []))].
  destruct (parseJsonSafe m) as [a|]; [apply G | cbn; split; [lia | reflexivity]].
Qed.

(** [suggestTickets]: with the key set, a reply with no open bracket
    followed later by a close bracket gives no suggestions and no error;
    and a bracketed part that parses at all parses to an array, so the
    [Array.isArray(arr) ? arr : []] fallback never applies to a parsed
    value. *)
Theorem suggestTickets_silent key nts se te ce t :
  key <> [] ->
  ((forall a b c, reply_text t <> a ++ 91 :: b ++ 93 :: c) ->
   suggestTickets (Some key) nts se te ce (Text t) = mkSuggestResult [] None) /\
  (forall m v, bracket_match (reply_text t) = Some m -> parseJsonSafe m = Some v -> exists l, v = JArr l).
Proof.
  intros Hk. split.
  - intros H. unfold suggestTickets. destruct key as [|k key]; [congruence|].
    assert (E : bracket_match (reply_text t) = None).
    { apply (proj2 (proj2 (delim_match_spec 91 93 (reply_text t) []))). exact H. }
    rewrite E. reflexivity.
  - intros m v. apply bracket_parse_array.
Qed.

Lemma suggestTickets_silent_witness :
  u "k" <> [] /\
  suggestTickets (Some (u "k")) (fun _ => u "0") (u "SyntaxError") (u "TypeError") (u "ConvError")
    (Text (Some (u "Sorry, no tickets."))) = mkSuggestResult [] None.
Proof.
  assert (Hk : u "k" <> []) by discriminate.
  split; [exact Hk|].
  apply (proj1 (suggestTickets_silent (u "k") (fun _ => u "0") (u "SyntaxError") (u "TypeError") (u "ConvError")
    (Some (u "Sorry, no tickets.")) Hk)).
  intros a b c E. assert (Hin : In 91 (reply_text (Some (u "Sorry, no tickets.")))).
  { rewrite E. apply in_or_app. right. left. reflexivity. }
  revert Hin. vm_compute. intros Hin. repeat (destruct Hin as [Hin|Hin]; [discriminate|]). exact Hin.
Defined.

(** [suggestTickets]: with the key set and a bracketed array [l] in the
    reply, only the first three elements are read. When the callback maps
    all of them ([elem_ok]), there is one suggestion each and no error.
    Otherwise the first element it fails on decides the result: no
    suggestions (the well-formed ones are lost too) and the message of what
    it threw, the [TypeError] of reading a property of null or the one of
    converting an object with an own [toString]. *)
Theorem suggestTickets_elements key nts se te ce t m l :
  key <> [] -> bracket_match (reply_text t) = Some m -> parseJsonSafe m = Some (JArr l) ->
  (Forall (fun x => elem_ok x = true) (firstn 3 l) ->
   s_error (suggestTickets (Some key) nts se te ce (Text t)) = None /\
   List.length (suggestions (suggestTickets (Some key) nts se te ce (Text t))) = Nat.min 3 (List.length l)) /\
  (forall pre x post, firstn 3 l = pre ++ x :: post -> Forall (fun y => elem_ok y = true) pre ->
   elem_ok x = false ->
   suggestTickets (Some key) nts se te ce (Text t) = mkSuggestResult [] (Some (elem_error te ce x))).
Proof.
  intros Hk Hm Hl. unfold suggestTickets. destruct key as [|k key]; [congruence|].
  rewrite Hm, Hl. cbv beta iota zeta.
  pose proof (map_suggestions_spec nts te ce (firstn 3 l)) as H.
  destruct (map_suggestions nts te ce (firstn 3 l)) as [m'|s].
  - destruct H as [pre' [x' [post' [E [Hp [Hx ->]]]]]]. split.
    + intros Hall. exfalso. rewrite E in Hall. rewrite Forall_forall in Hall.
      assert (T : elem_ok x' = true) by (apply Hall; apply in_elt). congruence.
    + intros pre x post E' Hp1 Hx1. rewrite E in E'.
      rewrite (first_fail_unique elem_ok _ _ _ _ _ _ E' Hp Hx Hp1 Hx1). reflexivity.
  - destruct H as [Hall Hlen]. split.
    + intros _. split; [reflexivity|]. cbn [suggestions]. rewrite Hlen, length_firstn. reflexivity.
    + intros pre x post E' Hp1 Hx1. exfalso. rewrite E', Forall_forall in Hall.
      assert (T : elem_ok x = true) by (apply Hall; apply in_elt). congruence.
Qed.

Lemma suggestTickets_elements_witness :
  let r := JsonSafe.uq "[{'Subject':'Login fails'}, {'Subject':{'toString':1}}, null]" in
  let good := JObj [(u "Subject", JStr (u "Login fails"))] in
  let bad := JObj [(u "Subject", JObj [(u "toString", JNum (inject_Z 1))])] in
  u "k" <> [] /\ bracket_match (reply_text (Some r)) = Some r /\
  parseJsonSafe r = Some (JArr [good; bad; JNull]) /\
  Forall (fun y => elem_ok y = true) [good] /\ elem_ok bad = false /\
  suggestTickets (Some (u "k")) (fun _ => u "0") (u "SyntaxError") (u "TypeError") (u "ConvError") (Text (Some r))
    = mkSuggestResult [] (Some (u "ConvError")).
Proof.
  cbn zeta.
  assert (Hk : u "k" <> []) by discriminate.
  assert (Hm : bracket_match (reply_text (Some (JsonSafe.uq "[{'Subject':'Login fails'}, {'Subject':{'toString':1}}, null]")))
    = Some (JsonSafe.uq "[{'Subject':'Login fails'}, {'Subject':{'toString':1}}, null]")) by (vm_compute; reflexivity).
  assert (Hp : parseJsonSafe (JsonSafe.uq "[{'Subject':'Login fails'}, {'Subject':{'toString':1}}, null]")
    = Some (JArr [JObj [(u "Subject", JStr (u "Login fails"))];
                  JObj [(u "Subject", JObj [(u "toString", JNum (inject_Z 1))])]; JNull])) by (vm_compute; reflexivity).
  assert (Hg : Forall (fun y => elem_ok y = true) [JObj [(u "Subject", JStr (u "Login fails"))]])
    by (constructor; [vm_compute; reflexivity | constructor]).
  assert (Hb : elem_ok (JObj [(u "Subject", JObj [(u "toString", JNum (inject_Z 1))])]) = false)
    by (vm_compute; reflexivity).
  split; [exact Hk|]. split; [exact Hm|]. split; [exact Hp|]. split; [exact Hg|]. split; [exact Hb|].
  exact (proj2 (suggestTickets_elements _ (fun _ => u "0") (u "SyntaxError") (u "TypeError") (u "ConvError")
    _ _ _ Hk Hm Hp) [JObj [(u "Subject", JStr (u "Login fails"))]]
    (JObj [(u "Subject", JObj [(u "toString", JNum (inject_Z 1))])]) [JNull] eq_refl Hg Hb).
Defined.

End SuggestProofs.

Module ExcelDataProofs.
Import Json AnalyzeTicket ExcelData.
Local Open Scope N_scope.

Lemma find_first {A} (f : A -> bool) l :
  match find f l with
  | Some x => f x = true /\ exists pre post, l = pre ++ x :: post /\ Forall (fun y => f y = false) pre
  | None => Forall (fun y => f y = false) l
  end.
Proof.
  induction l as [|y l IH]; simpl; [constructor|].
  destruct (f y) eqn:E.
  - split; [exact E|]. exists [], l. split; [reflexivity | constructor].
  - destruct (find f l) as [x|].
    + destruct IH as [Hx [pre [post [-> Hp]]]]. split; [exact Hx|].
      exists (y :: pre), post. split; [reflexivity | constructor; assumption].
    + constructor; assumption.
Qed.

Lemma jstr_eqb_false a b : jstr_eqb a b = false <-> a <> b.
Proof.
  rewrite <- not_true_iff_false, JsStringFacts.jstr_eqb_eq. tauto.
Qed.

Lemma find_first_eq {A} (key : A -> jstr) (k : jstr) l :
  match find (fun x => jstr_eqb (key x) k) l with
  | Some x => key x = k /\ exists pre post, l = pre ++ x :: post /\ Forall (fun y => key y <> k) pre
  | None => Forall (fun y => key y <> k) l
  end.
Proof.
  pose proof (find_first (fun x => jstr_eqb (key x) k) l) as H.
  destruct (find (fun x => jstr_eqb (key x) k) l) as [x|].
  - destruct H as [Hx [pre [post [E Hp]]]]. split; [apply JsStringFacts.jstr_eqb_eq; exact Hx|].
    exists pre, post. split; [exact E|]. eapply Forall_impl; [|exact Hp]. intros y Hy. apply jstr_eqb_false. exact Hy.
  - eapply Forall_impl; [|exact H]. intros y Hy. apply jstr_eqb_false. exact Hy.
Qed.

(** [getTicketById] and [getConversationByTicketNumber]: the result is the
    first row whose ticket number is the one asked for, or [undefined] when
    no row has it. *)
Theorem lookup_first tickets ticketId convos ticketNumber :
  match getTicketById tickets ticketId with
  | Some t => Ticket_Number t = ticketId /\
      exists pre post, tickets = pre ++ t :: post /\ Forall (fun t' => Ticket_Number t' <> ticketId) pre
  | None => Forall (fun t => Ticket_Number t <> ticketId) tickets
  end /\
  match getConversationByTicketNumber convos ticketNumber with
  | Some c => conv_Ticket_Number c = ticketNumber /\
      exists pre post, convos = pre ++ c :: post /\ Forall (fun c' => conv_Ticket_Number c' <> ticketNumber) pre
  | None => Forall (fun c => conv_Ticket_Number c <> ticketNumber) convos
  end.
Proof. split; [apply (find_first_eq Ticket_Number) | apply (find_first_eq conv_Ticket_Number)]. Qed.

Lemma map_get_set_same {V} k (v : V) m : map_get k (map_set k v m) = Some v.
Proof.
  induction m as [|[k' v'] m IH]; simpl.
  - unfold map_get. simpl. rewrite (proj2 (JsStringFacts.jstr_eqb_eq k k) eq_refl). reflexivity.
  - destruct (jstr_eqb k' k) eqn:E.
    + unfold map_get. simpl. rewrite (proj2 (JsStringFacts.jstr_eqb_eq k k) eq_refl). reflexivity.
    + unfold map_get in *. simpl. rewrite E. exact IH.
Qed.

Lemma map_get_set_other {V} k k' (v : V) m : k' <> k -> map_get k (map_set k' v m) = map_get k m.
Proof.
  intros Hne. induction m as [|[k0 v0] m IH]; simpl.
  - unfold map_get. simpl. rewrite (proj2 (jstr_eqb_false k' k) Hne). reflexivity.
  - destruct (jstr_eqb k0 k') eqn:E.
    + apply JsStringFacts.jstr_eqb_eq in E. subst k0. unfold map_get. simpl.
      rewrite (proj2 (jstr_eqb_false k' k) Hne). reflexivity.
    + unfold map_get in *. simpl. destruct (jstr_eqb k0 k); [reflexivity | exact IH].
Qed.

Lemma find_app {A} (f : A -> bool) l1 l2 :
  find f (l1 ++ l2) = match find f l1 with Some x => Some x | None => find f l2 end.
Proof. induction l1 as [|x l1 IH]; simpl; [reflexivity|]. destruct (f x); [reflexivity | exact IH]. Qed.

Lemma map_get_fold {V} k (entries : list (jstr * V)) m :
  map_get k (fold_left (fun m kv => map_set (fst kv) (snd kv) m) entries m) =
  match find (fun kv => jstr_eqb (fst kv) k) (rev entries) with
  | Some kv => Some (snd kv)
  | None => map_get k m
  end.
Proof.
  revert m; induction entries as [|[k' v] es IH]; intros m; simpl; [reflexivity|].
  rewrite IH, find_app. simpl.
  destruct (find (fun kv => jstr_eqb (fst kv) k) (rev es)); [reflexivity|].
  destruct (jstr_eqb k' k) eqn:E.
  - apply JsStringFacts.jstr_eqb_eq in E. subst k'. apply map_get_set_same.
  - apply map_get_set_other. apply jstr_eqb_false. exact E.
Qed.

Lemma find_map_pair {A} (key : A -> jstr) k l :
  find (fun kv => jstr_eqb (fst kv) k) (map (fun c => (key c, c)) l) =
  option_map (fun c => (key c, c)) (find (fun c => jstr_eqb (key c) k) l).
Proof. induction l as [|c l IH]; simpl; [reflexivity|]. destruct (jstr_eqb (key c) k); [reflexivity | exact IH]. Qed.

(** [getTicketsForQueueWithTranscript(limit)]: the first [limit] tickets,
    in order, each with the transcript of the LAST conversation that has its
    ticket number (the [Map] keeps the last entry per key), or none when no
    conversation has it; [getConversationByTicketNumber] takes the first. *)
Theorem queue_transcripts tickets convos limit :
  let q := getTicketsForQueueWithTranscript tickets convos limit in
  map q_ticket q = firstn limit tickets /\
  Forall (fun x =>
    (exists pre c post, convos = pre ++ c :: post /\ conv_Ticket_Number c = Ticket_Number (q_ticket x) /\
       Forall (fun c' => conv_Ticket_Number c' <> Ticket_Number (q_ticket x)) post /\
       transcript x = Transcript c) \/
    (Forall (fun c => conv_Ticket_Number c <> Ticket_Number (q_ticket x)) convos /\ transcript x = None)) q.
Proof.
  cbn zeta. unfold getTicketsForQueueWithTranscript, getTicketsForQueue, Map_of. split.
  - rewrite map_map. simpl. apply map_id.
  - apply Forall_map, Forall_forall. intros t _. cbn [q_ticket transcript].
    rewrite map_get_fold, <- map_rev, find_map_pair.
    pose proof (find_first_eq conv_Ticket_Number (Ticket_Number t) (rev convos)) as H.
    destruct (find (fun c => jstr_eqb (conv_Ticket_Number c) (Ticket_Number t)) (rev convos)) as [c|].
    + destruct H as [Hc [pre [post [E Hp]]]]. left. exists (rev post), c, (rev pre).
      split; [rewrite <- (rev_involutive convos), E, rev_app_distr; simpl; rewrite <- app_assoc; reflexivity|].
      split; [exact Hc|]. split; [apply Forall_rev; exact Hp | reflexivity].
    + right. split; [rewrite <- (rev_involutive convos); apply Forall_rev; exact H | reflexivity].
Qed.


Lemma load_runs_cached {A} (c : list A) wbs : load_runs (Some c) wbs = repeat (Some c) (List.length wbs).
Proof. induction wbs as [|wb wbs IH]; simpl; [reflexivity | rewrite IH; reflexivity]. Qed.

(** The row loaders ([loadTickets] and the others): with an array cached,
    every call returns it, whatever the file holds. Without one, the calls
    throw while the workbook cannot be read; the first call that reads it
    returns the sheet's rows, or the empty array when the sheet is missing,
    and that array is returned by every later call, whatever the file holds
    then. *)
Theorem loaders_cache {A} (c : list A) (wbs : list (option (option (list A)))) n
    (w : option (list A)) (rest : list (option (option (list A)))) :
  load_runs (Some c) wbs = repeat (Some c) (List.length wbs) /\
  load_runs None (repeat (@None (option (list A))) n) = repeat None n /\
  load_runs None (repeat None n ++ Some w :: rest) =
    repeat None n ++ repeat (Some (match w with Some rows => rows | None => [] end)) (S (List.length rest)).
Proof.
  split; [apply load_runs_cached|]. split.
  - induction n as [|n IH]; simpl; [reflexivity | rewrite IH; reflexivity].
  - induction n as [|n IH]; simpl; [|rewrite IH; reflexivity].
    destruct w as [rows|]; simpl; rewrite load_runs_cached; reflexivity.
Qed.

(** [getQAEvaluationPromptText]: once a non-empty text is cached every call
    returns its first [maxChars] code units without reading the workbook;
    an empty text is not kept (the next call reads again, as with no
    cache); every returned text has at most [maxChars] code units. *)
Theorem qa_prompt_cache nts c s cache calls :
  qa_runs nts (Some (c :: s)) calls = map (fun call => Some (firstn (snd call) (c :: s))) calls /\
  qa_runs nts (Some []) calls = qa_runs nts None calls /\
  Forall2 (fun call r => match r with Some x => (List.length x <= snd call)%nat | None => True end)
    calls (qa_runs nts cache calls).
Proof.
  split; [|split].
  - induction calls as [|[wb n] calls IH]; simpl; [reflexivity | rewrite IH; reflexivity].
  - induction calls as [|[wb n] calls IH]; [reflexivity|]. simpl.
    destruct wb as [[rows|]|]; simpl; [destruct (rows_text nts rows)|..]; rewrite ?IH; reflexivity.
  - revert cache; induction calls as [|[wb n] calls IH]; intros cache; simpl; [constructor|].
    destruct (getQAEvaluationPromptText nts cache wb n) as [r cache'] eqn:E.
    constructor; [|apply IH]. cbn [snd].
    unfold getQAEvaluationPromptText in E.
    destruct cache as [[|c0 s0]|];
      [destruct wb as [[rows|]|] | | destruct wb as [[rows|]|]];
      try destruct (rows_text nts rows); injection E as <- _; try apply firstn_le_length; cbn; try lia; exact I.
Qed.

End ExcelDataProofs.

Module TtsProofs.
Import Json AnalyzeTicket ExcelData TtsRoute DashboardView.
Local Open Scope N_scope.

Lemma option_eq_dec (o : option jvalue) : {o = Some JNull} + {o <> Some JNull}.
Proof. destruct o as [[]|]; (left; reflexivity) || (right; discriminate). Qed.

(** The text the route reads from its body: [body.text] when it is a
    string, else the default. *)
Definition requested_text (body : option jvalue) : jstr :=
  match option_map (fun b => get b (u "text")) body with
  | Some (Some (JStr s)) => s
  | _ => u "No transcript available."
  end.

(** [POST /api/tts]: a request goes upstream only with a key and a body
    that is not JSON null, and it carries at most 2500 code units, the
    start of [body.text] (or of the default text); without a key the answer
    is a 500 error; an upstream status outside 200-299 is passed through
    with the upstream body as details. *)
Theorem tts_post apiKey body fetch :
  let r := POST apiKey body fetch in
  (forall x, fst r = Some x -> (List.length x <= 2500)%nat /\ x = firstn 2500 (requested_text body)) /\
  (fst r = None <-> apiKey = None \/ apiKey = Some [] \/ body = Some JNull) /\
  ((apiKey = None \/ apiKey = Some []) -> r = (None, JsonError 500 (u "ElevenLabs API key not configured") None)) /\
  (forall x res, fst r = Some x -> fetch x = Some res -> (up_status res < 200 \/ 299 < up_status res) ->
     snd r = JsonError (up_status res) (u "ElevenLabs TTS failed") (Some (up_body res))).
Proof.
  cbn zeta.
  assert (Hreq : forall b, b <> Some JNull ->
    POST apiKey b fetch = match apiKey with
      | None | Some [] => (None, JsonError 500 (u "ElevenLabs API key not configured") None)
      | Some _ =>
        (Some (firstn 2500 (requested_text b)),
         match fetch (firstn 2500 (requested_text b)) with
         | None => Throws
         | Some res =>
             if (200 <=? up_status res) && (up_status res <=? 299) then Audio 200 (u "audio/mpeg") (up_body res)
             else JsonError (up_status res) (u "ElevenLabs TTS failed") (Some (up_body res))
         end) end).
  { intros b Hb. unfold POST. destruct apiKey as [[|k key]|]; try reflexivity.
    destruct b as [v|]; [|reflexivity]. destruct v; try reflexivity. congruence. }
  destruct (option_eq_dec body) as [->|Hb].
  - unfold POST. destruct apiKey as [[|k key]|]; cbn [fst snd].
    all: split; [intros x E; discriminate E|].
    all: split; [split; [intros _; tauto | reflexivity]|].
    all: split; [intros [E|E]; first [reflexivity | discriminate E] | intros x res E; discriminate E].
  - rewrite (Hreq body Hb). destruct apiKey as [[|k key]|]; cbn [fst snd].
    2: { split; [intros x E; assert (Ex : firstn 2500 (requested_text body) = x) by congruence;
                 rewrite <- Ex; split; [apply firstn_le_length | reflexivity]|].
         split; [split; [discriminate | intros [E|[E|E]]; [discriminate E | discriminate E | contradiction]]|].
         split; [intros [E|E]; discriminate E|].
         intros x res E Hf Hs. assert (Ex : firstn 2500 (requested_text body) = x) by congruence.
         rewrite Ex, Hf.
         destruct (N.leb_spec 200 (up_status res)), (N.leb_spec (up_status res) 299); try lia; reflexivity. }
    all: split; [intros x E; discriminate E|].
    all: split; [split; [intros _; tauto | reflexivity]|].
    all: split; [intros _; reflexivity | intros x res E; discriminate E].
Qed.

(** [playCall()] with [POST /api/tts]: the route sends upstream exactly the
    truncated text the dashboard put in its request (the second
    truncation changes nothing). *)
Theorem playCall_tts_text key t fetch :
  key <> [] ->
  fst (POST (Some key) (Some (playCall_body t)) fetch) = Some (firstn 2500 (playCall_text t)).
Proof.
  intros Hk. destruct key as [|k key]; [congruence|]. unfold POST, playCall_body.
  assert (G : get (JObj [(u "text", JStr (firstn 2500 (playCall_text t)))]) (u "text")
              = Some (JStr (firstn 2500 (playCall_text t)))) by reflexivity.
  cbv beta iota zeta. rewrite G. cbn [fst]. rewrite firstn_firstn, Nat.min_id. reflexivity.
Qed.

Lemma playCall_tts_text_witness :
  u "k" <> [] /\
  fst (POST (Some (u "k")) (Some (playCall_body (mkQueueTicket (mkTicket (u "T1") (Some (u "Login")) None) None)))
         (fun _ => None)) = Some (u "Login").
Proof.
  assert (Hk : u "k" <> []) by discriminate. split; [exact Hk|].
  exact (playCall_tts_text (u "k") (mkQueueTicket (mkTicket (u "T1") (Some (u "Login")) None) None) _ Hk).
Defined.

End TtsProofs.

Module ViewProofs.
Import Json AnalyzeTicket DashboardView JsStringFacts AnalyzeExtraProofs.
Local Open Scope N_scope.

Definition no_ws (w : jstr) : Prop := w <> [] /\ forall c, In c w -> is_ws c = false.

Lemma words_no_ws s : Forall no_ws (words s).
Proof.
  unfold words. apply Forall_forall. intros w Hw. apply filter_In in Hw as [Hw Hn].
  split; [destruct w; [discriminate | congruence]|].
  intros c Hc. destruct (split_ws_chars [] false (trim s) w c Hw Hc) as [[]|[_ H]]. exact H.
Qed.

Lemma join_sp_app a b :
  join_sp (a ++ b) = match a, b with [], _ => join_sp b | _, [] => join_sp a | _, _ => join_sp a ++ 32 :: join_sp b end.
Proof.
  induction a as [|w a IH]; [reflexivity|].
  destruct b as [|w' b]; [rewrite app_nil_r; destruct a; reflexivity|].
  destruct a as [|w0 a]; [reflexivity|].
  replace (join_sp ((w :: w0 :: a) ++ w' :: b)) with (w ++ 32 :: join_sp ((w0 :: a) ++ w' :: b)) by reflexivity.
  rewrite IH. change (join_sp (w :: w0 :: a)) with (w ++ 32 :: join_sp (w0 :: a)).
  rewrite <- app_assoc. reflexivity.
Qed.

Lemma firstn_plus {A} n k (l : list A) : firstn (n + k) l = firstn n l ++ firstn k (skipn n l).
Proof.
  revert l; induction n as [|n IH]; intros l; [reflexivity|].
  destruct l as [|x l]; [destruct k; reflexivity|]. simpl. rewrite IH. reflexivity.
Qed.

Lemma join_sp_edges ts : Forall no_ws ts ->
  match join_sp ts with [] => True | c :: _ => is_ws c = false end /\
  match rev (join_sp ts) with [] => True | c :: _ => is_ws c = false end.
Proof.
  intros H. destruct ts as [|t ts] using rev_ind; [split; exact I|].
  apply Forall_app in H as [Hts Ht]. inversion Ht as [|? ? [Hne Hw] _]; subst.
  split.
  - destruct ts as [|t0 ts0].
    + simpl. destruct t as [|c t]; [congruence|]. apply Hw. left. reflexivity.
    + inversion Hts as [|? ? [Hne0 Hw0] _]; subst. simpl.
      destruct (ts0 ++ [t]) as [|t1 l1] eqn:E; [destruct ts0; discriminate|].
      destruct t0 as [|c t0]; [congruence|]. apply Hw0. left. reflexivity.
  - rewrite join_sp_app.
    assert (Hl : match rev t with [] => True | c :: _ => is_ws c = false end).
    { destruct (rev t) as [|c rt] eqn:E; [exact I|]. apply Hw. apply in_rev. rewrite E. left. reflexivity. }
    destruct ts as [|t0 ts0]; [exact Hl|].
    change (join_sp [t]) with t. rewrite rev_app_distr. cbn [rev]. rewrite <- app_assoc.
    destruct (rev t) as [|c rt] eqn:E; [|exact Hl].
    apply (f_equal (@rev N)) in E. rewrite rev_involutive in E. simpl in E. congruence.
Qed.

Lemma trim_join ts : Forall no_ws ts -> trim (join_sp ts) = join_sp ts.
Proof.
  intros H. destruct (join_sp_edges ts H) as [H1 H2]. unfold trim.
  rewrite (trim_start_nows _ H1), (trim_start_nows _ H2). apply rev_involutive.
Qed.

Lemma filter_all_forall {A} (f : A -> bool) l : Forall (fun x => f x = true) l -> filter f l = l.
Proof. induction 1 as [|x l Hx _ IH]; simpl; [reflexivity | rewrite Hx, IH; reflexivity]. Qed.

Lemma words_join ts : Forall no_ws ts -> words (join_sp ts) = ts.
Proof.
  intros H. unfold words. rewrite trim_join by exact H.
  destruct ts as [|t ts]; [reflexivity|].
  rewrite split_ws_join; [| discriminate | intros x Hx; exact (proj1 (Forall_forall _ _) H x Hx)].
  apply filter_all_forall. eapply Forall_impl; [|exact H]. intros w [Hw _]. destruct w; [congruence | reflexivity].
Qed.

(** [visibleTranscript]: the words shown, split again, are exactly the
    first [transcriptVisibleLength] words of the transcript; raising the
    length only appends to the text shown; once it reaches the number of
    words the whole transcript is shown, its words joined by single
    spaces. *)
Theorem visible_transcript s n :
  words (visibleTranscript s n) = firstn n (words s) /\
  (forall k, exists rest, visibleTranscript s (n + k) = visibleTranscript s n ++ rest) /\
  visibleTranscript s (List.length (words s) + n) = join_sp (words s).
Proof.
  unfold visibleTranscript. pose proof (words_no_ws s) as H. split; [|split].
  - apply words_join. rewrite <- (firstn_skipn n (words s)) in H. apply Forall_app in H. exact (proj1 H).
  - intros k. rewrite firstn_plus, join_sp_app.
    destruct (firstn n (words s)) as [|w l].
    + exists (join_sp (firstn k (skipn n (words s)))). reflexivity.
    + destruct (firstn k (skipn n (words s))) as [|w' l'].
      * exists []. rewrite app_nil_r. reflexivity.
      * exists (32 :: join_sp (w' :: l')). reflexivity.
  - rewrite firstn_all2 by lia. reflexivity.
Qed.


Lemma batch_loop_spec {T} (analyze : nat -> T -> AnalyzeTicketResult) i l g f :
  batch_loop analyze i l g f =
  (g + List.length (filter (fun p => draft_truthy (new_knowledge_draft (analyze (fst p) (snd p))))
                      (combine (seq i (List.length l)) l)),
   f + List.length (filter (fun p => negb (draft_truthy (new_knowledge_draft (analyze (fst p) (snd p)))))
                      (combine (seq i (List.length l)) l)))%nat.
Proof.
  revert i g f; induction l as [|t l IH]; intros i g f; simpl; [f_equal; lia|].
  destruct (draft_truthy (new_knowledge_draft (analyze i t))); simpl; rewrite IH; f_equal; lia.
Qed.

Lemma filter_split_length {A} (h : A -> bool) l :
  (List.length (filter h l) + List.length (filter (fun x => negb (h x)) l) = List.length l)%nat.
Proof. induction l as [|x l IH]; simpl; [reflexivity|]. destruct (h x); simpl; lia. Qed.

(** [runBatchSimulation()]: with no ticket it returns early; otherwise it
    runs the first three tickets ([total] is the smaller of 3 and the
    number of tickets), [gaps] counts the analyses that proposed a draft and
    [fromKb] the others, so the two add up to [total]. *)
Theorem batch_counts {T} (allTickets : list T) (analyze : nat -> T -> AnalyzeTicketResult) :
  match runBatchSimulation allTickets analyze with
  | None => allTickets = []
  | Some r =>
      total r = Nat.min 3 (List.length allTickets) /\ (0 < total r)%nat /\ (gaps r + fromKb r = total r)%nat /\
      gaps r = List.length (filter (fun p => draft_truthy (new_knowledge_draft (analyze (fst p) (snd p))))
                                   (combine (seq 0 (total r)) (firstn 3 allTickets)))
  end.
Proof.
  unfold runBatchSimulation.
  destruct (firstn 3 allTickets) as [|t l] eqn:E.
  - destruct allTickets; [reflexivity | discriminate].
  - rewrite batch_loop_spec. cbn [total gaps fromKb].
    rewrite <- E, length_firstn. split; [reflexivity|].
    split; [destruct allTickets; [discriminate | simpl; lia]|]. split; [|reflexivity].
    rewrite (Nat.add_0_l), (Nat.add_0_l), filter_split_length, length_combine, length_seq, length_firstn.
    apply Nat.min_id.
Qed.

End ViewProofs.

Module IdProofs.
Import Dashboard.
Local Open Scope N_scope.

Lemma uint_digits_inj d1 d2 : uint_digits d1 = uint_digits d2 -> d1 = d2.
Proof.
  revert d2; induction d1; intros d2; destruct d2; simpl; intros H; try discriminate; try reflexivity;
    injection H as H; f_equal; auto.
Qed.

Lemma N_to_string_inj a b : N_to_string a = N_to_string b <-> a = b.
Proof.
  split; [|intros ->; reflexivity]. unfold N_to_string. intros H. apply uint_digits_inj in H.
  rewrite <- (DecimalN.Unsigned.of_to a), <- (DecimalN.Unsigned.of_to b), H. reflexivity.
Qed.

(** [handleApprovePublish()]: two approvals get the same article id
    exactly when their first [Date.now()] readings are equal (two approvals
    in the same millisecond collide, any others never do). *)
Theorem approve_ids draft ticket now1 now2 now3 s draft' ticket' now1' now2' now3' s' :
  match handleApprovePublish draft ticket now1 now2 now3 s,
        handleApprovePublish draft' ticket' now1' now2' now3' s' with
  | Some (_, id1), Some (_, id2) => id1 = id2 <-> now1 = now1'
  | _, _ => True
  end.
Proof.
  unfold handleApprovePublish.
  destruct draft as [[|c d]|], ticket as [tk|]; try exact I;
  destruct draft' as [[|c' d']|], ticket' as [tk'|]; try exact I.
  rewrite <- N_to_string_inj. split; [apply app_inv_head | intros ->; reflexivity].
Qed.

End IdProofs.
